(** * The stdio holder of the plugin daemon

    A shallow embedding of [package stdio_holder]: the per-plugin object
    that owns the three standard streams of a child process, demultiplexes
    the line-delimited JSON events of its standard output, keeps a bounded
    window of its standard error and lets callers wait on its liveness.

    Conventions of the embedding.
    - A Go [string] and a [[]byte] are both sequences of bytes; they are
      modelled by [string], whose characters are 8-bit.  [len] is
      [String.length].
    - A Go [int] is modelled by [Z].  The only [int] arithmetic of the package
      adds two string lengths, which are bounded by the address space, so the
      64-bit wrap-around is never reached and is not written out.
    - [time.Time] is an instant in nanoseconds on the clock of the process,
      [time.Duration] a number of nanoseconds; [time.Now()] is an explicit
      argument [now] of every function that reads the clock.
    - A run-time panic is the result [None].
    - Callbacks are closures of the callers; a call is recorded as an event
      of the trace of effects, next to log lines and stream closes.
    - The mutexes only delimit the atomic sections; each function below is
      one atomic transformation of the state. *)

From Stdlib Require Import Ascii.
From stdpp Require Import gmap strings list fin_maps.

Local Open Scope Z_scope.

(** ** Strings as byte sequences *)

Definition len (s : string) : Z := Z.of_nat (String.length s).

Fixpoint string_drop (n : nat) (s : string) : string :=
  match n, s with
  | O, _ => s
  | S _, EmptyString => EmptyString
  | S n', String _ s' => string_drop n' s'
  end.

(** [s[lo:]]: panics unless [0 <= lo <= len(s)]. *)
Definition slice_from (s : string) (lo : Z) : option string :=
  if decide (0 <= lo <= len s) then Some (string_drop (Z.to_nat lo) s) else None.

(** The last [n] bytes of [s] (all of [s] when it is shorter). *)
Definition string_last (n : nat) (s : string) : string :=
  string_drop (String.length s - n) s.

Fixpoint string_repeat (c : ascii) (n : nat) : string :=
  match n with
  | O => EmptyString
  | S n' => String c (string_repeat c n')
  end.

Definition newline : string := String (Ascii.ascii_of_nat 10) EmptyString.

Fixpoint string_concat (l : list string) : string :=
  match l with
  | [] => EmptyString
  | s :: l' => s +:+ string_concat l'
  end.

(** ** Time *)

Definition Time : Type := Z.
Definition Duration : Type := Z.

Definition Second : Duration := 1000000000.
Definition minDuration : Duration := - 2 ^ 63.
Definition maxDuration : Duration := 2 ^ 63 - 1.

(** [t.Sub(u)]: the difference, saturated to the range of [Duration]. *)
Definition Sub (t u : Time) : Duration :=
  let d := t - u in
  if decide (d > maxDuration) then maxDuration
  else if decide (d < minDuration) then minDuration
  else d.

(** [time.Since(t)] read at the instant [now]. *)
Definition Since (now t : Time) : Duration := Sub now t.

(** ** Errors, streams, channels, callbacks *)

Inductive error : Type :=
| errors_New (text : string).

(** An [io.Closer]: the model counts the [Close] calls it received. *)
Record stream : Type := mkStream { close_calls : nat }.

Definition Close (f : stream) : stream := mkStream (S (close_calls f)).

Inductive chan : Type := ChanOpen | ChanClosed.

(** [close(c)] panics on a closed channel. *)
Definition close (c : chan) : option chan :=
  match c with
  | ChanOpen => Some ChanClosed
  | ChanClosed => None
  end.

(** A registered closure, named by the caller that registered it. *)
Definition callback : Type := nat.

(** Address of a holder, as stored in the process-wide index. *)
Definition ptr : Type := positive.

Inductive effect : Type :=
| LogError (text : string)
| LogInfo (text : string)
| CallBroadcast (key : string) (f : callback) (holder_id data : string)
| CallSession (key : string) (f : callback) (data : string)
| CloseWriter
| CloseReader
| CloseErrReader
| CloseHealthChan
| DeleteHolder (holder_id : string).

Global Instance effect_eq_dec : EqDecision effect.
Proof. solve_decision. Defined.

(** ** The holder *)

Record stdioHolder : Type := mkHolder {
  id : string;
  plugin_identity : string;
  writer : stream;
  reader : stream;
  err_reader : stream;
  listener : gmap string callback;
  error_listener : gmap string callback;
  started : bool;
  err_message : string;
  last_err_message_updated_at : Time;
  health_chan : chan;
  health_chan_closed : bool;
  last_active_at : Time
}.

(** The package-level variables. *)
Record globals : Type := mkGlobals {
  stdio_holder : gmap string ptr;
  listeners : gmap string callback
}.

Definition set_err_message (m : string) (t : Time) (s : stdioHolder) : stdioHolder :=
  mkHolder (id s) (plugin_identity s) (writer s) (reader s) (err_reader s)
    (listener s) (error_listener s) (started s)
    m t
    (health_chan s) (health_chan_closed s) (last_active_at s).

Definition set_last_active_at (t : Time) (s : stdioHolder) : stdioHolder :=
  mkHolder (id s) (plugin_identity s) (writer s) (reader s) (err_reader s)
    (listener s) (error_listener s) (started s)
    (err_message s) (last_err_message_updated_at s)
    (health_chan s) (health_chan_closed s) t.

Definition set_started (b : bool) (s : stdioHolder) : stdioHolder :=
  mkHolder (id s) (plugin_identity s) (writer s) (reader s) (err_reader s)
    (listener s) (error_listener s) b
    (err_message s) (last_err_message_updated_at s)
    (health_chan s) (health_chan_closed s) (last_active_at s).

Definition close_streams (s : stdioHolder) : stdioHolder :=
  mkHolder (id s) (plugin_identity s)
    (Close (writer s)) (Close (reader s)) (Close (err_reader s))
    (listener s) (error_listener s) (started s)
    (err_message s) (last_err_message_updated_at s)
    (health_chan s) (health_chan_closed s) (last_active_at s).

Definition set_health_chan (c : chan) (b : bool) (s : stdioHolder) : stdioHolder :=
  mkHolder (id s) (plugin_identity s) (writer s) (reader s) (err_reader s)
    (listener s) (error_listener s) (started s)
    (err_message s) (last_err_message_updated_at s)
    c b (last_active_at s).

(** ** [Error] *)

Definition Error (s : stdioHolder) (now : Time) : option error :=
  if decide (Since now (last_err_message_updated_at s) < 60 * Second) then
    if decide (err_message s ≠ "") then Some (errors_New (err_message s))
    else None
  else None.

(** ** [WriteError] *)

Definition MAX_ERR_MSG_LEN : Z := 1024.

(** [reduce := len(msg) + len(s.err_message) - MAX_ERR_MSG_LEN] *)
Definition WriteError_reduce (s : stdioHolder) (msg : string) : Z :=
  len msg + len (err_message s) - MAX_ERR_MSG_LEN.

Definition WriteError (s : stdioHolder) (msg : string) (now : Time)
  : option stdioHolder :=
  let reduce := WriteError_reduce s msg in
  kept ← (if decide (reduce > 0) then slice_from (err_message s) reduce
          else Some (err_message s));
  Some (set_err_message (kept +:+ msg) now s).

(** A sequence of appends, each with its clock reading. *)
Fixpoint WriteError_all (s : stdioHolder) (msgs : list (string * Time))
  : option stdioHolder :=
  match msgs with
  | [] => Some s
  | (msg, now) :: rest => s' ← WriteError s msg now; WriteError_all s' rest
  end.

(** ** [StartStderr] *)

Inductive io_error : Type :=
| EOF
| io_failure (text : string).

(** One [s.err_reader.Read(buf)] on a 1024-byte buffer: [rd_data] is
    [buf[:n]], so that [n] is its length. *)
Record read_result : Type := mkRead {
  rd_data : string;
  rd_err : option io_error
}.

Definition BUF_SIZE : nat := 1024.

Definition read_fits (r : read_result) : Prop :=
  (String.length (rd_data r) <= BUF_SIZE)%nat.

Inductive loop_ctl : Type := Continue | Break.

(** One iteration of the loop of [StartStderr]. *)
Definition StartStderr_iter (s : stdioHolder) (r : read_result) (now : Time)
  : option (stdioHolder * loop_ctl) :=
  match rd_err r with
  | Some (io_failure _) => Some (s, Break)
  | Some EOF =>
      s' ← WriteError s (rd_data r +:+ newline) now; Some (s', Break)
  | None =>
      if decide (len (rd_data r) > 0) then
        s' ← WriteError s (rd_data r +:+ newline) now; Some (s', Continue)
      else Some (s, Continue)
  end.

Inductive outcome (A : Type) : Type :=
| Returned (a : A)
| Blocked (a : A)
| Panicked.
Arguments Returned {A} a.
Arguments Blocked {A} a.
Arguments Panicked {A}.

(** The loop against the reads the stream delivers, each with the clock
    reading of its iteration; when the script is used up the task is
    blocked in [Read]. *)
Fixpoint StartStderr (s : stdioHolder) (script : list (read_result * Time))
  : outcome stdioHolder :=
  match script with
  | [] => Blocked s
  | (r, now) :: rest =>
      match StartStderr_iter s r now with
      | None => Panicked
      | Some (s', Break) => Returned s'
      | Some (s', Continue) => StartStderr s' rest
      end
  end.

(** ** [Stop] *)

(** The three stream closes, the guarded close of the health channel and
    the removal from the process-wide index.  The result is the trace of
    what was closed and deleted, with the new state. *)
Definition Stop (g : globals) (s : stdioHolder)
  : option (list effect * globals * stdioHolder) :=
  let s1 := close_streams s in
  r ← (if health_chan_closed s1 then Some ([], s1)
       else c ← close (health_chan s1);
            Some ([CloseHealthChan], set_health_chan c true s1));
  Some ([CloseWriter; CloseReader; CloseErrReader] ++ r.1
          ++ [DeleteHolder (id r.2)],
        mkGlobals (delete (id r.2) (stdio_holder g)) (listeners g),
        r.2).

(** [k] calls in a row. *)
Fixpoint Stop_times (k : nat) (g : globals) (s : stdioHolder)
  : option (list effect * globals * stdioHolder) :=
  match k with
  | O => Some ([], g, s)
  | S k' =>
      r ← Stop g s;
      r' ← Stop_times k' r.1.2 r.2;
      Some (r.1.1 ++ r'.1.1, r'.1.2, r'.2)
  end.

(** The flag and the channel agree: only [Stop] closes the channel, and it
    sets the flag in the same critical section. *)
Definition health_consistent (s : stdioHolder) : Prop :=
  health_chan_closed s = false → health_chan s = ChanOpen.

(** ** [StartStdout] *)

(** Modelled from the spec: the event tags of package [plugin_entities]
    (the declarations of [PluginUniversalEvent], of its tags and of
    [PluginLogEvent] are not among the sources).  The tag is one of [LOG],
    [SESSION], [ERROR], [HEARTBEAT]; any other tag is unknown. *)
Inductive PluginUniversalEventType : Type :=
| PLUGIN_EVENT_LOG
| PLUGIN_EVENT_SESSION
| PLUGIN_EVENT_ERROR
| PLUGIN_EVENT_HEARTBEAT
| PLUGIN_EVENT_unknown (tag : string).

Record PluginUniversalEvent : Type := mkEvent {
  SessionId : string;
  Event : PluginUniversalEventType;
  Data : string
}.

Record PluginLogEvent : Type := mkLogEvent { Message : string }.

Definition error_text (e : error) : string :=
  match e with errors_New t => t end.

(** What one iteration of the scanner loop reads from its environment: the
    clock, and the order in which [range] visits each of the two maps.  Go
    leaves the iteration order of a map unspecified, and it may differ from
    one loop to the next. *)
Record iteration : Type := mkIteration {
  it_now : Time;
  range_listeners : list (string * callback);
  range_listener : list (string * callback)
}.

(** The orders that [range] may produce on the maps as they are. *)
Definition admissible (g : globals) (s : stdioHolder) (it : iteration) : Prop :=
  range_listeners it ≡ₚ map_to_list (listeners g) ∧
  range_listener it ≡ₚ map_to_list (listener s).

(** [for _, listener := range listeners { listener(s.id, event.Data) }] *)
Definition broadcast_loop (holder_id data : string)
    (visits : list (string * callback)) : list effect :=
  map (λ kf, CallBroadcast kf.1 kf.2 holder_id data) visits.

(** [for listener_session_id, listener := range s.listener { if ... }] *)
Fixpoint session_loop (session_id data : string)
    (visits : list (string * callback)) : list effect :=
  match visits with
  | [] => []
  | (listener_session_id, f) :: rest =>
      (if decide (listener_session_id = session_id)
       then [CallSession listener_session_id f data] else [])
      ++ session_loop session_id data rest
  end.

Section Demultiplexer.

(** [parser.UnmarshalJsonBytes] at the two types it is used at; the
    function is not among the sources and is left abstract. *)
Variable UnmarshalEvent : string → error + PluginUniversalEvent.
Variable UnmarshalLog : string → error + PluginLogEvent.

(** The body of the scanner loop on the token [data]. *)
Definition handle_line (s : stdioHolder) (it : iteration) (data : string)
  : list effect * stdioHolder :=
  if decide (len data = 0) then ([], s)
  else
    match UnmarshalEvent data with
    | inl _ => ([], s)
    | inr event =>
        let session_id := SessionId event in
        match Event event with
        | PLUGIN_EVENT_LOG =>
            match UnmarshalLog (Data event) with
            | inl err =>
                ([LogError ("unmarshal json failed: " +:+ error_text err)], s)
            | inr logEvent =>
                ([LogInfo ("plugin " +:+ plugin_identity s +:+ ": "
                             +:+ Message logEvent)], s)
            end
        | PLUGIN_EVENT_SESSION =>
            (broadcast_loop (id s) (Data event) (range_listeners it)
               ++ session_loop session_id (Data event) (range_listener it),
             s)
        | PLUGIN_EVENT_ERROR =>
            ([LogError ("plugin " +:+ plugin_identity s +:+ ": "
                          +:+ Data event)], s)
        | PLUGIN_EVENT_HEARTBEAT =>
            ([], set_last_active_at (it_now it) s)
        | PLUGIN_EVENT_unknown _ => ([], s)
        end
    end.

(** [for scanner.Scan() { ... }] over the tokens the scanner yields
    before it reports the end of the stream or a failure. *)
Fixpoint scan_loop (s : stdioHolder) (script : list (string * iteration))
  : list effect * stdioHolder :=
  match script with
  | [] => ([], s)
  | (data, it) :: rest =>
      let r := handle_line s it data in
      let r' := scan_loop r.2 rest in
      (r.1 ++ r'.1, r'.2)
  end.

(** The whole task: the latch, the loop, the deferred [Stop]. *)
Definition StartStdout (g : globals) (s : stdioHolder)
    (script : list (string * iteration))
  : option (list effect * globals * stdioHolder) :=
  let r := scan_loop (set_started true s) script in
  r' ← Stop g r.2;
  Some (r.1 ++ r'.1.1, r'.1.2, r'.2).

End Demultiplexer.

(** ** [Wait] *)

(** The waiter runs next to the other tasks of the holder, so it is a small
    machine whose steps are interleaved with theirs.  Its program points: *)
Inductive wait_pc : Type :=
| AtEntry                      (* before the first check of the flag *)
| AtLoopTop                    (* ticker armed, before the check in the loop *)
| AtSelect                     (* blocked in [select] *)
| Done (r : option error).     (* returned [r] *)

Inductive wait_step : Type :=
| CheckFlag                    (* lock, read [health_chan_closed], unlock *)
| RecvTick (now : Time)        (* [case <-ticker.C], clock read at [now] *)
| RecvHealth (now : Time).     (* [case <-s.health_chan] *)

Definition Wait_step (s : stdioHolder) (pc : wait_pc) (st : wait_step)
  : option wait_pc :=
  match pc, st with
  | AtEntry, CheckFlag =>
      if health_chan_closed s
      then Some (Done (Some (errors_New
                   "you need to start the health check before waiting")))
      else Some AtLoopTop
  | AtLoopTop, CheckFlag =>
      if health_chan_closed s then Some (Done None) else Some AtSelect
  | AtSelect, RecvTick now =>
      if decide (Since now (last_active_at s) > 20 * Second)
      then Some (Done (Some (errors_New "plugin is not active")))
      else Some AtLoopTop
  | AtSelect, RecvHealth now =>
      (* a receive on [health_chan] only proceeds once it is closed *)
      match health_chan s with
      | ChanClosed => Some (Done (Error s now))
      | ChanOpen => None
      end
  | _, _ => None
  end.

(** A schedule interleaves the steps of the waiter with what the other
    tasks do to the holder. *)
Inductive action : Type :=
| WaitDoes (st : wait_step)
| StopCalled
| HeartbeatHandled (now : Time)
| ErrorWritten (msg : string) (now : Time).

Record system : Type := mkSystem {
  sys_globals : globals;
  sys_holder : stdioHolder;
  sys_wait : wait_pc
}.

Definition system_step (y : system) (a : action) : option system :=
  match a with
  | WaitDoes st =>
      pc ← Wait_step (sys_holder y) (sys_wait y) st;
      Some (mkSystem (sys_globals y) (sys_holder y) pc)
  | StopCalled =>
      r ← Stop (sys_globals y) (sys_holder y);
      Some (mkSystem r.1.2 r.2 (sys_wait y))
  | HeartbeatHandled now =>
      Some (mkSystem (sys_globals y)
              (set_last_active_at now (sys_holder y)) (sys_wait y))
  | ErrorWritten msg now =>
      s' ← WriteError (sys_holder y) msg now;
      Some (mkSystem (sys_globals y) s' (sys_wait y))
  end.

Fixpoint system_run (y : system) (sched : list action) : option system :=
  match sched with
  | [] => Some y
  | a :: rest => y' ← system_step y a; system_run y' rest
  end.

(** The waiter alone, the ticker armed at [t0 - 5s]: [n] rounds of the loop,
    the first tick delivered at [t0] and one every five seconds after it. *)
Fixpoint polls (t0 : Time) (n : nat) : list action :=
  match n with
  | O => []
  | S n' =>
      WaitDoes CheckFlag :: WaitDoes (RecvTick t0)
        :: polls (t0 + 5 * Second) n'
  end.

(** [Wait] called at the instant [c] on a holder that no other task
    touches: the check at the entry, the ticker armed at [c], then [n + 1]
    rounds of the loop, whose ticks are delivered at [c + 5s], [c + 10s],
    ... *)
Definition Wait_quiet (c : Time) (n : nat) : list action :=
  WaitDoes CheckFlag :: polls (c + 5 * Second) (S n).

(** ** Values for the examples *)

(** A holder as the spawn path hands it over: nothing registered, an empty
    ring, the health channel open. *)
Definition example_holder : stdioHolder :=
  mkHolder "holder-1" "example-plugin" (mkStream 0) (mkStream 0) (mkStream 0)
    ∅ ∅ false "" 0 ChanOpen false 0.

Definition example_globals : globals := mkGlobals ∅ ∅.

(** A stand-in for the JSON decoder, used by the examples only: the first
    byte of a line is its tag, the rest its [data]; session events carry the
    session id [a]. *)
Definition example_UnmarshalEvent (data : string)
  : error + PluginUniversalEvent :=
  match data with
  | String "h" _ => inr (mkEvent "" PLUGIN_EVENT_HEARTBEAT "")
  | String "s" rest => inr (mkEvent "a" PLUGIN_EVENT_SESSION rest)
  | String "l" rest => inr (mkEvent "" PLUGIN_EVENT_LOG rest)
  | String "e" rest => inr (mkEvent "" PLUGIN_EVENT_ERROR rest)
  | String "u" rest => inr (mkEvent "" (PLUGIN_EVENT_unknown "u") rest)
  | _ => inl (errors_New "invalid character")
  end%char.

Definition example_UnmarshalLog (data : string) : error + PluginLogEvent :=
  match data with
  | String "{" rest => inr (mkLogEvent rest)
  | _ => inl (errors_New "unexpected end of JSON input")
  end%char.

(** A holder with two session listeners, next to one broadcast listener,
    and the visits of one iteration over them. *)
Definition example_session_holder : stdioHolder :=
  mkHolder "holder-1" "example-plugin" (mkStream 0) (mkStream 0) (mkStream 0)
    (<["a" := 7%nat]> (<["b" := 8%nat]> ∅)) ∅ false "" 0 ChanOpen false 0.

Definition example_session_globals : globals :=
  mkGlobals ∅ (<["l1" := 1%nat]> ∅).

Definition example_iteration (now : Time) : iteration :=
  mkIteration now [("l1", 1%nat)] [("a", 7%nat); ("b", 8%nat)].

(** The clock readings of a script never run backwards from [t]. *)
Fixpoint clock_from (t : Time) (script : list (string * iteration)) : Prop :=
  match script with
  | [] => True
  | (_, it) :: rest => t <= it_now it ∧ clock_from (it_now it) rest
  end.

(** The last clock reading of a script that starts at [t]. *)
Fixpoint last_reading (t : Time) (script : list (string * iteration)) : Time :=
  match script with
  | [] => t
  | (_, it) :: rest => last_reading (it_now it) rest
  end.

(** How often the health channel is closed in a trace. *)
Definition health_chan_closes (tr : list effect) : nat :=
  length (filter (λ e, e = CloseHealthChan) tr).

(** ** Notions used to state properties of whole runs *)

(** The flag is set exactly when the channel is closed. *)
Definition health_invariant (s : stdioHolder) : Prop :=
  health_chan_closed s = true ↔ health_chan s = ChanClosed.

(** The bytes the collector hands to [WriteError] along a script: each
    non-empty read and the read that reports the end of the stream, each
    followed by a newline, up to the read that ends the loop. *)
Fixpoint collected (script : list (read_result * Time)) : string :=
  match script with
  | [] => ""
  | (r, _) :: rest =>
      match rd_err r with
      | Some (io_failure _) => ""
      | Some EOF => rd_data r +:+ newline
      | None =>
          (if decide (len (rd_data r) > 0) then rd_data r +:+ newline else "")
          +:+ collected rest
      end
  end.

(** Some read of the script reports an error, so that the loop is left. *)
Fixpoint reaches_exit (script : list (read_result * Time)) : bool :=
  match script with
  | [] => false
  | (r, _) :: rest =>
      match rd_err r with
      | Some _ => true
      | None => reaches_exit rest
      end
  end.

(** A read that fills the buffer is handed to [WriteError] before the loop
    is left. *)
Fixpoint reaches_full_read (script : list (read_result * Time)) : bool :=
  match script with
  | [] => false
  | (r, _) :: rest =>
      match rd_err r with
      | Some (io_failure _) => false
      | Some EOF => bool_decide (String.length (rd_data r) = BUF_SIZE)
      | None =>
          bool_decide (String.length (rd_data r) = BUF_SIZE)
          || reaches_full_read rest
      end
  end.

(** The [SESSION] envelope a token decodes to, if it does. *)
Definition decoded_session
    (UnmarshalEvent : string → error + PluginUniversalEvent) (data : string)
  : option PluginUniversalEvent :=
  if decide (len data = 0) then None
  else
    match UnmarshalEvent data with
    | inl _ => None
    | inr event =>
        match Event event with
        | PLUGIN_EVENT_SESSION => Some event
        | _ => None
        end
    end.

(** The [SESSION] envelopes of a script, in the order of its lines. *)
Fixpoint session_events
    (UnmarshalEvent : string → error + PluginUniversalEvent)
    (script : list (string * iteration)) : list PluginUniversalEvent :=
  match script with
  | [] => []
  | (data, _) :: rest =>
      match decoded_session UnmarshalEvent data with
      | Some event => event :: session_events UnmarshalEvent rest
      | None => session_events UnmarshalEvent rest
      end
  end.

(** The calls a trace makes to the per-session listener stored under
    [key], and to the broadcast listener stored under [key]. *)
Fixpoint calls_to_session (key : string) (tr : list effect)
  : list (callback * string) :=
  match tr with
  | [] => []
  | CallSession k f data :: rest =>
      if decide (k = key) then (f, data) :: calls_to_session key rest
      else calls_to_session key rest
  | _ :: rest => calls_to_session key rest
  end.

Fixpoint calls_to_broadcast (key : string) (tr : list effect)
  : list (callback * string * string) :=
  match tr with
  | [] => []
  | CallBroadcast k f holder_id data :: rest =>
      if decide (k = key)
      then (f, holder_id, data) :: calls_to_broadcast key rest
      else calls_to_broadcast key rest
  | _ :: rest => calls_to_broadcast key rest
  end.

(** The token decodes to a [HEARTBEAT]. *)
Definition is_heartbeat
    (UnmarshalEvent : string → error + PluginUniversalEvent) (data : string)
  : bool :=
  if decide (len data = 0) then false
  else
    match UnmarshalEvent data with
    | inl _ => false
    | inr event =>
        match Event event with
        | PLUGIN_EVENT_HEARTBEAT => true
        | _ => false
        end
    end.

(** The clock reading of the last heartbeat of a script, [t] if it has
    none. *)
Fixpoint last_heartbeat
    (UnmarshalEvent : string → error + PluginUniversalEvent)
    (t : Time) (script : list (string * iteration)) : Time :=
  match script with
  | [] => t
  | (data, it) :: rest =>
      last_heartbeat UnmarshalEvent
        (if is_heartbeat UnmarshalEvent data then it_now it else t) rest
  end.

(** Every iteration of the script visits the two maps as they are. *)
Definition admissible_script (g : globals) (s : stdioHolder)
    (script : list (string * iteration)) : Prop :=
  Forall (λ di, admissible g s di.2) script.

(** Every tick of the schedule is read at most 20 seconds after the
    heartbeat handled last before it ([la] when there is none). *)
Fixpoint ticks_in_time (la : Time) (sched : list action) : Prop :=
  match sched with
  | [] => True
  | HeartbeatHandled now :: rest => ticks_in_time now rest
  | WaitDoes (RecvTick now) :: rest =>
      now - la <= 20 * Second ∧ ticks_in_time la rest
  | _ :: rest => ticks_in_time la rest
  end.

Definition returned (pc : wait_pc) : Prop :=
  match pc with
  | Done _ => True
  | _ => False
  end.

(** Without [Stop] the holder stays open and the waiter can only have
    returned through the inactivity check. *)
Definition open_and_polling (y : system) : Prop :=
  health_chan_closed (sys_holder y) = false ∧
  health_chan (sys_holder y) = ChanOpen ∧
  match sys_wait y with
  | Done r => r = Some (errors_New "plugin is not active")
  | _ => True
  end.

(** The holder is open and the waiter has not returned. *)
Definition open_and_waiting (y : system) : Prop :=
  health_chan_closed (sys_holder y) = false ∧
  health_chan (sys_holder y) = ChanOpen ∧
  ¬ returned (sys_wait y).

(** ** The close helper of [Endpoint] *)

(** [done := make(chan bool)] and [closed := new(int32)], as [Endpoint]
    shares them between its deferred call and the task that copies the
    response. *)
Record endpoint_signal : Type := mkSignal {
  sig_closed : Z;
  sig_done : chan
}.

Definition new_endpoint_signal : endpoint_signal := mkSignal 0 ChanOpen.

(** [atomic.CompareAndSwapInt32(addr, old, new)]: whether it swapped, and
    the new content. *)
Definition CompareAndSwapInt32 (v old new : Z) : bool * Z :=
  if decide (v = old) then (true, new) else (false, v).

(** [close := func() { if atomic.CompareAndSwapInt32(closed, 0, 1) {
    close(done) } }] *)
Definition Endpoint_close (e : endpoint_signal) : option endpoint_signal :=
  let r := CompareAndSwapInt32 (sig_closed e) 0 1 in
  if r.1 then d ← close (sig_done e); Some (mkSignal r.2 d)
  else Some (mkSignal r.2 (sig_done e)).

Fixpoint Endpoint_close_times (k : nat) (e : endpoint_signal)
  : option endpoint_signal :=
  match k with
  | O => Some e
  | S k' => e' ← Endpoint_close e; Endpoint_close_times k' e'
  end.

(** * Properties *)

(** ** Byte sequences *)

Lemma string_app_cons (c : ascii) (a b : string) :
  String c a +:+ b = String c (a +:+ b).
Proof. reflexivity. Qed.

Lemma string_app_nil_l (b : string) : "" +:+ b = b.
Proof. reflexivity. Qed.

Lemma string_app_nil_r (a : string) : a +:+ "" = a.
Proof.
  induction a as [|c a IH]; [reflexivity|].
  rewrite string_app_cons. by rewrite IH.
Qed.

Lemma string_app_assoc (a b c : string) : (a +:+ b) +:+ c = a +:+ (b +:+ c).
Proof.
  induction a as [|x a IH]; [reflexivity|].
  rewrite !string_app_cons. by rewrite IH.
Qed.

Lemma string_length_app (a b : string) :
  String.length (a +:+ b) = (String.length a + String.length b)%nat.
Proof.
  induction a as [|c a IH]; [reflexivity|].
  rewrite string_app_cons. simpl. by rewrite IH.
Qed.

Lemma len_app (a b : string) : len (a +:+ b) = len a + len b.
Proof. unfold len. rewrite string_length_app. lia. Qed.

Lemma len_nonneg (a : string) : 0 <= len a.
Proof. unfold len. lia. Qed.

Lemma len_newline : len newline = 1.
Proof. reflexivity. Qed.

Lemma string_length_repeat (c : ascii) (n : nat) :
  String.length (string_repeat c n) = n.
Proof. induction n as [|n IH]; simpl; [done|]. by rewrite IH. Qed.

Lemma string_length_zero (a : string) : String.length a = O → a = "".
Proof. by destruct a. Qed.

Lemma string_drop_0 (s : string) : string_drop 0 s = s.
Proof. by destruct s. Qed.

Lemma string_drop_nil (n : nat) : string_drop n "" = "".
Proof. by destruct n. Qed.

Lemma string_length_drop (n : nat) (s : string) :
  String.length (string_drop n s) = (String.length s - n)%nat.
Proof.
  revert s. induction n as [|n IH]; intros [|c s]; simpl; auto.
Qed.

Lemma string_drop_app_le (n : nat) (a b : string) :
  (n <= String.length a)%nat →
  string_drop n (a +:+ b) = string_drop n a +:+ b.
Proof.
  revert a. induction n as [|n IH]; intros a Hn.
  - by rewrite !string_drop_0.
  - destruct a as [|c a]; simpl in Hn; [lia|].
    rewrite string_app_cons. simpl. apply IH. lia.
Qed.

Lemma string_drop_drop (n m : nat) (s : string) :
  string_drop n (string_drop m s) = string_drop (m + n) s.
Proof.
  revert s. induction m as [|m IH]; intros s.
  - by rewrite string_drop_0.
  - destruct s as [|c s]; simpl; [by rewrite string_drop_nil|]. apply IH.
Qed.

Lemma string_length_last (n : nat) (s : string) :
  String.length (string_last n s) = (String.length s `min` n)%nat.
Proof. unfold string_last. rewrite string_length_drop. lia. Qed.

Lemma string_last_all (n : nat) (s : string) :
  (String.length s <= n)%nat → string_last n s = s.
Proof.
  intros H. unfold string_last.
  replace (String.length s - n)%nat with O by lia. apply string_drop_0.
Qed.

(** The window of a window extended is the window of the whole. *)
Lemma string_last_app_last (n : nat) (a m : string) :
  string_last n (string_last n a +:+ m) = string_last n (a +:+ m).
Proof.
  unfold string_last.
  rewrite <- (string_drop_app_le _ a m) by lia.
  rewrite string_drop_drop. f_equal.
  rewrite string_length_drop, string_length_app. lia.
Qed.

(** ** Durations *)

Lemma Since_lt (now t : Time) (d : Duration) :
  minDuration < d <= maxDuration → (Since now t < d ↔ now - t < d).
Proof.
  unfold Since, Sub, minDuration, maxDuration. intros Hd.
  repeat case_decide; lia.
Qed.

Lemma Since_gt (now t : Time) (d : Duration) :
  minDuration <= d < maxDuration → (Since now t > d ↔ now - t > d).
Proof.
  unfold Since, Sub, minDuration, maxDuration. intros Hd.
  repeat case_decide; lia.
Qed.

(** ** The error ring *)

Lemma set_err_message_fields (m : string) (t : Time) (s : stdioHolder) :
  err_message (set_err_message m t s) = m ∧
  last_err_message_updated_at (set_err_message m t s) = t ∧
  last_active_at (set_err_message m t s) = last_active_at s ∧
  health_chan (set_err_message m t s) = health_chan s ∧
  health_chan_closed (set_err_message m t s) = health_chan_closed s.
Proof. done. Qed.

Lemma WriteError_reduce_bound (s : stdioHolder) (msg : string) :
  WriteError_reduce s msg <= len (err_message s) ↔ len msg <= MAX_ERR_MSG_LEN.
Proof. unfold WriteError_reduce. lia. Qed.

(** [WriteError] returns exactly when the message fits the cap. *)
Lemma WriteError_Some_iff (s : stdioHolder) (msg : string) (now : Time) :
  is_Some (WriteError s msg now) ↔ len msg <= MAX_ERR_MSG_LEN.
Proof.
  unfold WriteError, WriteError_reduce, slice_from, MAX_ERR_MSG_LEN.
  pose proof (len_nonneg msg). pose proof (len_nonneg (err_message s)).
  split.
  - intros [s' Hs']. repeat case_decide; simplify_eq/=; lia.
  - intros Hle. repeat case_decide; simpl; eauto. lia.
Qed.

(** When the message fits, the ring becomes the last 1024 bytes of the old
    ring followed by the message. *)
Lemma WriteError_window (s : stdioHolder) (msg : string) (now : Time) :
  len msg <= MAX_ERR_MSG_LEN →
  WriteError s msg now =
    Some (set_err_message (string_last 1024 (err_message s +:+ msg)) now s).
Proof.
  unfold WriteError, WriteError_reduce, slice_from, MAX_ERR_MSG_LEN, len. intros Hle.
  repeat case_decide; simpl; try lia.
  - do 2 f_equal. unfold string_last. rewrite string_length_app.
    rewrite string_drop_app_le by lia. do 2 f_equal. lia.
  - do 2 f_equal. symmetry. apply string_last_all.
    rewrite string_length_app. lia.
Qed.

(** On overflow the [reduce] oldest bytes go and the ring is full. *)
Lemma WriteError_drops_overflow (s s' : stdioHolder) (msg : string) (now : Time) :
  len msg <= MAX_ERR_MSG_LEN →
  WriteError_reduce s msg > 0 →
  WriteError s msg now = Some s' →
  err_message s' =
    string_drop (Z.to_nat (WriteError_reduce s msg)) (err_message s) +:+ msg ∧
  len (err_message s') = MAX_ERR_MSG_LEN ∧
  last_err_message_updated_at s' = now.
Proof.
  unfold WriteError, slice_from. intros Hle Hpos Hw.
  pose proof (WriteError_reduce_bound s msg) as Hb.
  rewrite decide_True in Hw by done.
  rewrite decide_True in Hw by lia.
  simpl in Hw. simplify_eq. simpl. split; [done|]. split; [|done].
  unfold len. rewrite string_length_app, string_length_drop.
  unfold WriteError_reduce, len, MAX_ERR_MSG_LEN in *. lia.
Qed.

(** The rolling window: after any sequence of appends that each fit the
    cap, the ring is the last 1024 bytes of everything appended to it. *)
Lemma WriteError_all_window (msgs : list (string * Time)) (s : stdioHolder) :
  Forall (λ m, len m.1 <= MAX_ERR_MSG_LEN) msgs →
  (String.length (err_message s) <= 1024)%nat →
  ∃ s', WriteError_all s msgs = Some s' ∧
        err_message s' =
          string_last 1024 (err_message s +:+ string_concat msgs.*1) ∧
        (String.length (err_message s') <= 1024)%nat.
Proof.
  revert s. induction msgs as [|[msg now] rest IH]; intros s Hall Hs.
  - exists s. simpl. rewrite string_app_nil_r.
    by rewrite string_last_all.
  - apply Forall_cons in Hall as [Hmsg Hrest]. simpl in Hmsg.
    simpl. rewrite WriteError_window by done. simpl.
    destruct (IH (set_err_message
                    (string_last 1024 (err_message s +:+ msg)) now s))
      as (s' & Hrun & Hwin & Hlen); [done| |].
    { simpl. rewrite string_length_last. lia. }
    exists s'. split; [done|]. split; [|done].
    rewrite Hwin. simpl.
    by rewrite string_last_app_last, string_app_assoc.
Qed.

(** From an empty ring: exactly the last [min(L, 1024)] bytes of a stream
    of [L] bytes. *)
Lemma WriteError_all_from_empty (msgs : list (string * Time)) (s : stdioHolder) :
  Forall (λ m, len m.1 <= MAX_ERR_MSG_LEN) msgs →
  err_message s = "" →
  ∃ s', WriteError_all s msgs = Some s' ∧
        err_message s' = string_last 1024 (string_concat msgs.*1) ∧
        String.length (err_message s') =
          (String.length (string_concat msgs.*1) `min` 1024)%nat.
Proof.
  intros Hall Hs.
  destruct (WriteError_all_window msgs s Hall) as (s' & Hrun & Hwin & _).
  { rewrite Hs. simpl. lia. }
  exists s'. rewrite Hs, string_app_nil_l in Hwin.
  split; [done|]. split; [done|].
  by rewrite Hwin, string_length_last.
Qed.

(** The message that [StartStderr] builds from a read that fills its
    buffer is one byte longer than the cap. *)
Lemma len_full_read (data : string) :
  String.length data = BUF_SIZE → len (data +:+ newline) = MAX_ERR_MSG_LEN + 1.
Proof.
  intros H. rewrite len_app, len_newline. unfold len. rewrite H. done.
Qed.

Lemma WriteError_None_iff (s : stdioHolder) (msg : string) (now : Time) :
  WriteError s msg now = None ↔ len msg > MAX_ERR_MSG_LEN.
Proof.
  pose proof (WriteError_Some_iff s msg now) as H.
  destruct (WriteError s msg now) as [s'|] eqn:E.
  - split; [done|]. intros Hgt.
    assert (len msg <= MAX_ERR_MSG_LEN) by (apply H; eauto). lia.
  - split; [|done]. intros _.
    destruct (decide (len msg <= MAX_ERR_MSG_LEN)) as [Hle|Hgt]; [|lia].
    apply H in Hle as [? ?]. done.
Qed.

(** C1 (the code departs from the claim).  The claim: for every ring and
    every message, [WriteError] drops the [overflow] oldest bytes and appends,
    so that the ring never exceeds 1024 bytes and holds the last
    [min(L, 1024)] bytes of the stream.  The code: on the 1025-byte message
    that [StartStderr] builds from a read of 1024 bytes and the newline it
    adds, the slice [s.err_message[reduce:]] has its lower bound
    [reduce = 1] beyond the empty ring, and the call panics; so does the
    collector task that made the call.  For messages of at most 1024 bytes
    the claim holds, see [WriteError_window], [WriteError_all_window] and
    [WriteError_all_from_empty]. *)
Theorem WriteError_full_read_panics :
  let msg := string_repeat "x" 1024 +:+ newline in
  len msg = 1025 ∧
  WriteError_reduce example_holder msg = 1 ∧
  len (err_message example_holder) = 0 ∧
  WriteError example_holder msg 0 = None ∧
  StartStderr example_holder [(mkRead (string_repeat "x" 1024) None, 0)]
    = Panicked.
Proof. vm_compute. done. Qed.

(** C10, as stated, fails where the ring and the message together are
    shorter than the cap: on the empty ring and the empty message the
    message fits ([len msg <= 1024]) while [reduce = -1024] is negative, so
    [0 <= reduce <= len(err_message)] does not hold.  No slice is taken
    there, the guard [reduce > 0] skips it. *)
Lemma WriteError_reduce_negative :
  len "" <= MAX_ERR_MSG_LEN ∧
  WriteError_reduce example_holder "" = -1024 ∧
  ¬ (0 <= WriteError_reduce example_holder ""
       <= len (err_message example_holder)) ∧
  is_Some (WriteError example_holder "" 0).
Proof.
  split; [by vm_compute|]. split; [by vm_compute|]. split.
  - vm_compute. intros [H _]. by apply H.
  - rewrite WriteError_Some_iff. by vm_compute.
Qed.

(** C10 (amended).  For every ring and every message: the upper bound
    [reduce <= len(err_message)] holds if and only if [len msg <= 1024];
    whenever the slice is taken ([reduce > 0]) it is in range,
    [0 <= reduce <= len(err_message)], if and only if [len msg <= 1024];
    hence [WriteError] returns without a panic if and only if
    [len msg <= 1024].  The bound is exceeded on a reachable input: a read
    that fills the 1024-byte buffer makes [StartStderr] build a message of
    1025 bytes, on which its iteration panics whatever the ring holds. *)
Theorem WriteError_slice_in_range_iff
    (s : stdioHolder) (msg : string) (now : Time) (c : ascii) :
  (WriteError_reduce s msg <= len (err_message s)
     ↔ len msg <= MAX_ERR_MSG_LEN) ∧
  (WriteError_reduce s msg > 0 →
     (0 <= WriteError_reduce s msg <= len (err_message s)
        ↔ len msg <= MAX_ERR_MSG_LEN)) ∧
  (is_Some (WriteError s msg now) ↔ len msg <= MAX_ERR_MSG_LEN) ∧
  len (string_repeat c BUF_SIZE +:+ newline) = MAX_ERR_MSG_LEN + 1 ∧
  StartStderr_iter s (mkRead (string_repeat c BUF_SIZE) None) now = None.
Proof.
  split; [apply WriteError_reduce_bound|].
  split; [intros Hpos; pose proof (WriteError_reduce_bound s msg); lia|].
  split; [apply WriteError_Some_iff|].
  assert (len (string_repeat c BUF_SIZE +:+ newline) = MAX_ERR_MSG_LEN + 1)
    as Hlen by (apply len_full_read, string_length_repeat).
  split; [done|].
  unfold StartStderr_iter. cbn [rd_err rd_data].
  assert (len (string_repeat c BUF_SIZE) > 0) as Hpos.
  { unfold len. rewrite string_length_repeat. by vm_compute. }
  rewrite decide_True by done.
  assert (WriteError s (string_repeat c BUF_SIZE +:+ newline) now = None)
    as ->; [|done].
  apply WriteError_None_iff. lia.
Qed.

Lemma WriteError_slice_in_range_iff_witness :
  (WriteError_reduce example_holder "boom" > 0 →
     (0 <= WriteError_reduce example_holder "boom"
        <= len (err_message example_holder)
      ↔ len "boom" <= MAX_ERR_MSG_LEN)) ∧
  is_Some (WriteError example_holder "boom" 0).
Proof.
  destruct (WriteError_slice_in_range_iff example_holder "boom" 0 "x")
    as (_ & H2 & H3 & _).
  split; [exact H2|]. apply H3. by vm_compute.
Defined.

(** ** [Error] *)

(** C7.  [Error] returns the ring as an error if and only if
    [now - last_err_message_updated_at < 60s] and the ring is not empty, and
    no error otherwise.  It is a function of the holder and of the clock that
    returns no new holder: nothing is assigned.  Hence, on the holder left by
    the last update of the ring at [t], whose ring is not empty, every call
    before [t + 60s] returns the ring and every call from [t + 60s] on
    returns no error. *)
Theorem Error_fresh_and_nonempty (s : stdioHolder) (now : Time) :
  (Error s now = Some (errors_New (err_message s))
     ↔ now - last_err_message_updated_at s < 60 * Second ∧ err_message s ≠ "") ∧
  (Error s now = None
     ↔ ¬ (now - last_err_message_updated_at s < 60 * Second
          ∧ err_message s ≠ "")) ∧
  (∀ e, Error s now = Some e → e = errors_New (err_message s)) ∧
  (∀ msg t s', WriteError s msg t = Some s' → err_message s' ≠ "" →
     ∀ now',
       (now' < t + 60 * Second
          → Error s' now' = Some (errors_New (err_message s'))) ∧
       (t + 60 * Second <= now' → Error s' now' = None)).
Proof.
  assert (∀ (s0 : stdioHolder) (t0 : Time),
            Since t0 (last_err_message_updated_at s0) < 60 * Second
            ↔ t0 - last_err_message_updated_at s0 < 60 * Second) as Hsince.
  { intros s0 t0. apply Since_lt. by vm_compute. }
  assert (∀ s0 t0,
            Error s0 t0 = Some (errors_New (err_message s0))
            ↔ t0 - last_err_message_updated_at s0 < 60 * Second
              ∧ err_message s0 ≠ "") as Hsome.
  { intros s0 t0. specialize (Hsince s0 t0). unfold Error.
    repeat case_decide; split; try done; try tauto.
    all: intros [? ?]; tauto. }
  assert (∀ s0 t0,
            Error s0 t0 = None
            ↔ ¬ (t0 - last_err_message_updated_at s0 < 60 * Second
                 ∧ err_message s0 ≠ "")) as Hnone.
  { intros s0 t0. specialize (Hsince s0 t0). unfold Error.
    repeat case_decide; split; try done; try tauto. }
  split; [apply Hsome|]. split; [apply Hnone|]. split.
  - intros e. unfold Error. repeat case_decide; congruence.
  - intros msg t s' Hw Hne now'.
    assert (last_err_message_updated_at s' = t) as Ht.
    { unfold WriteError in Hw.
      destruct (if decide (WriteError_reduce s msg > 0)
                then slice_from (err_message s) (WriteError_reduce s msg)
                else Some (err_message s)); by simplify_eq/=. }
    split.
    + intros Hlt. apply Hsome. rewrite Ht. split; [lia|done].
    + intros Hge. apply Hnone. rewrite Ht. intros [Hlt _]. lia.
Qed.

Lemma Error_fresh_and_nonempty_witness :
  Error example_holder 0 = None ∧
  Error (set_err_message "boom" 0 example_holder) (59 * Second)
    = Some (errors_New "boom") ∧
  Error (set_err_message "boom" 0 example_holder) (60 * Second) = None.
Proof.
  split; [|split].
  - apply (Error_fresh_and_nonempty example_holder 0).
    intros [_ Hne]. by apply Hne.
  - destruct (Error_fresh_and_nonempty example_holder 0) as (_ & _ & _ & H).
    apply (H "boom" 0 (set_err_message "boom" 0 example_holder));
      by vm_compute.
  - destruct (Error_fresh_and_nonempty example_holder 0) as (_ & _ & _ & H).
    apply (H "boom" 0 (set_err_message "boom" 0 example_holder));
      by vm_compute.
Defined.

(** ** [Stop] *)

Lemma Stop_unfold (g : globals) (s : stdioHolder) :
  health_consistent s →
  Stop g s =
    Some ([CloseWriter; CloseReader; CloseErrReader]
            ++ (if health_chan_closed s then [] else [CloseHealthChan])
            ++ [DeleteHolder (id s)],
          mkGlobals (delete (id s) (stdio_holder g)) (listeners g),
          if health_chan_closed s then close_streams s
          else set_health_chan ChanClosed true (close_streams s)).
Proof.
  intros Hc. unfold Stop. simpl.
  destruct (health_chan_closed s) eqn:Hflag; simpl; [done|].
  rewrite Hc by done. done.
Qed.

(** Once the flag is set, further calls close the streams again, delete the
    absent key again, and leave the channel alone. *)
Lemma Stop_times_closed (k : nat) (g : globals) (s : stdioHolder) :
  health_chan_closed s = true →
  ∃ tr s',
    Stop_times k g s
      = Some (tr,
              match k with
              | O => g
              | S _ => mkGlobals (delete (id s) (stdio_holder g)) (listeners g)
              end, s') ∧
    health_chan_closes tr = O ∧
    id s' = id s ∧
    health_chan_closed s' = true ∧
    health_chan s' = health_chan s ∧
    last_active_at s' = last_active_at s.
Proof.
  revert g s. induction k as [|k IH]; intros g s Hflag.
  - exists [], s. done.
  - simpl. rewrite Stop_unfold by (unfold health_consistent; congruence).
    rewrite Hflag. simpl.
    destruct (IH (mkGlobals (delete (id s) (stdio_holder g)) (listeners g))
                (close_streams s)) as (tr & s' & Hrun & Hcl & Hid & Hf & Hch & Hla);
      [done|].
    rewrite Hrun. simpl. exists (CloseWriter :: CloseReader :: CloseErrReader
                                   :: DeleteHolder (id s) :: tr), s'.
    split; [|done].
    destruct k as [|k']; [done|]. simpl.
    by rewrite delete_delete_eq.
Qed.

Lemma health_chan_closes_app (tr tr' : list effect) :
  health_chan_closes (tr ++ tr') =
    (health_chan_closes tr + health_chan_closes tr')%nat.
Proof. unfold health_chan_closes. by rewrite filter_app, length_app. Qed.

(** C8.  For every [k >= 1], [k] calls of [Stop] in a row all return (none
    panics) and leave the termination flag, the health channel and the
    process-wide index as one call leaves them: the flag set, the holder
    absent from the index.  Over all the calls the health channel is closed
    at most once, and as often as by a single call. *)
Theorem Stop_idempotent (g : globals) (s : stdioHolder) (k : nat) :
  health_consistent s →
  (1 <= k)%nat →
  ∃ tr g' s' tr1 g1 s1,
    Stop_times k g s = Some (tr, g', s') ∧
    Stop g s = Some (tr1, g1, s1) ∧
    health_chan_closed s' = health_chan_closed s1 ∧
    health_chan_closed s' = true ∧
    health_chan s' = health_chan s1 ∧
    g' = g1 ∧
    stdio_holder g' !! id s = None ∧
    (health_chan_closes tr <= 1)%nat ∧
    health_chan_closes tr = health_chan_closes tr1.
Proof.
  intros Hc Hk. destruct k as [|k]; [lia|]. clear Hk.
  simpl. rewrite (Stop_unfold g s Hc). simpl.
  set (g1 := mkGlobals (delete (id s) (stdio_holder g)) (listeners g)).
  set (s1 := if health_chan_closed s then close_streams s
             else set_health_chan ChanClosed true (close_streams s)).
  set (tr1 := CloseWriter :: CloseReader :: CloseErrReader
                :: (if health_chan_closed s then [] else [CloseHealthChan])
                ++ [DeleteHolder (id s)]).
  assert (health_chan_closed s1 = true) as Hflag1.
  { subst s1. by destruct (health_chan_closed s) eqn:E. }
  assert (id s1 = id s) as Hid1.
  { subst s1. by destruct (health_chan_closed s). }
  destruct (Stop_times_closed k g1 s1 Hflag1)
    as (tr' & s' & Hrun & Hcl & Hid & Hf & Hch & _).
  rewrite Hrun. simpl.
  exists (tr1 ++ tr'),
    (match k with
     | O => g1
     | S _ => mkGlobals (delete (id s1) (stdio_holder g1)) (listeners g1)
     end), s', tr1, g1, s1.
  split; [done|]. split; [done|]. split; [congruence|]. split; [done|].
  split; [done|]. split.
  { destruct k; [done|]. subst g1. simpl. rewrite Hid1.
    by rewrite delete_delete_eq. }
  split.
  { destruct k; subst g1; simpl; rewrite ?Hid1, ?delete_delete_eq;
      apply lookup_delete_eq. }
  rewrite health_chan_closes_app, Hcl.
  split; [|lia].
  subst tr1. destruct (health_chan_closed s); vm_compute; lia.
Qed.

Lemma Stop_idempotent_witness :
  ∃ tr g' s' tr1 g1 s1,
    Stop_times 3 example_globals example_holder = Some (tr, g', s') ∧
    Stop example_globals example_holder = Some (tr1, g1, s1) ∧
    health_chan_closed s' = health_chan_closed s1 ∧
    health_chan_closed s' = true ∧
    health_chan s' = health_chan s1 ∧
    g' = g1 ∧
    stdio_holder g' !! id example_holder = None ∧
    (health_chan_closes tr <= 1)%nat ∧
    health_chan_closes tr = health_chan_closes tr1.
Proof.
  apply (Stop_idempotent example_globals example_holder 3).
  - intros _. reflexivity.
  - lia.
Defined.

(** ** [Wait] *)

(** C6.  On a holder whose termination flag is already set when [Wait] is
    called, the first step of [Wait] returns the error "you need to start
    the health check before waiting"; the polling loop is not entered: no
    step from the entry leads to the top of the loop or into the
    [select]. *)
Theorem Wait_on_terminated_holder (g : globals) (s : stdioHolder) :
  health_chan_closed s = true →
  system_step (mkSystem g s AtEntry) (WaitDoes CheckFlag)
    = Some (mkSystem g s
              (Done (Some (errors_New
                 "you need to start the health check before waiting")))) ∧
  (∀ st, Wait_step s AtEntry st ≠ Some AtLoopTop
         ∧ Wait_step s AtEntry st ≠ Some AtSelect) ∧
  (∀ now, Wait_step s AtEntry (RecvTick now) = None
          ∧ Wait_step s AtEntry (RecvHealth now) = None).
Proof.
  intros Hflag. split; [|split].
  - simpl. by rewrite Hflag.
  - intros st. destruct st; simpl; rewrite ?Hflag; done.
  - done.
Qed.

Lemma Wait_on_terminated_holder_witness :
  system_step
    (mkSystem example_globals
       (set_health_chan ChanClosed true example_holder) AtEntry)
    (WaitDoes CheckFlag)
  = Some (mkSystem example_globals
            (set_health_chan ChanClosed true example_holder)
            (Done (Some (errors_New
               "you need to start the health check before waiting")))).
Proof.
  apply (Wait_on_terminated_holder example_globals
           (set_health_chan ChanClosed true example_holder)).
  reflexivity.
Defined.

Lemma system_run_app (y : system) (a b : list action) :
  system_run y (a ++ b) = y' ← system_run y a; system_run y' b.
Proof.
  revert y. induction a as [|x a IH]; intros y; simpl; [done|].
  destruct (system_step y x) as [y'|]; simpl; [apply IH|done].
Qed.

Lemma polls_snoc (t0 : Time) (n : nat) :
  polls t0 (S n) =
    polls t0 n ++ [WaitDoes CheckFlag;
                   WaitDoes (RecvTick (t0 + 5 * Second * Z.of_nat n))].
Proof.
  revert t0. induction n as [|n IH]; intros t0.
  - replace (t0 + 5 * Second * Z.of_nat 0) with t0 by lia. done.
  - change (polls t0 (S (S n)))
      with (WaitDoes CheckFlag :: WaitDoes (RecvTick t0)
              :: polls (t0 + 5 * Second) (S n)).
    rewrite IH.
    replace (t0 + 5 * Second * Z.of_nat (S n))
      with (t0 + 5 * Second + 5 * Second * Z.of_nat n) by lia.
    done.
Qed.

(** One round of the loop on a tick read at [now]. *)
Lemma poll_round (g : globals) (s : stdioHolder) (now : Time) :
  health_chan_closed s = false →
  system_run (mkSystem g s AtLoopTop)
    [WaitDoes CheckFlag; WaitDoes (RecvTick now)]
  = Some (mkSystem g s
            (if decide (now - last_active_at s > 20 * Second)
             then Done (Some (errors_New "plugin is not active"))
             else AtLoopTop)).
Proof.
  intros Hflag. simpl. rewrite Hflag. simpl.
  pose proof (Since_gt now (last_active_at s) (20 * Second)) as Hs.
  repeat case_decide; try done.
  - exfalso. apply H0, Hs; [by vm_compute|done].
  - exfalso. apply H, Hs; [by vm_compute|done].
Qed.

(** While every tick comes within 20 seconds of the last heartbeat, the
    waiter goes round the loop. *)
Lemma polls_pass (n : nat) (t0 : Time) (g : globals) (s : stdioHolder) :
  health_chan_closed s = false →
  t0 + 5 * Second * Z.of_nat n <= last_active_at s + 25 * Second →
  system_run (mkSystem g s AtLoopTop) (polls t0 n)
  = Some (mkSystem g s AtLoopTop).
Proof.
  intros Hflag. revert t0. induction n as [|n IH]; intros t0 Hle; [done|].
  change (polls t0 (S n))
    with ([WaitDoes CheckFlag; WaitDoes (RecvTick t0)]
            ++ polls (t0 + 5 * Second) n).
  rewrite system_run_app, poll_round by done.
  assert (0 < Second) by (by vm_compute).
  rewrite decide_False by lia. simpl. apply IH. lia.
Qed.

(** C5, as stated, fails twice.  First, when [Stop] runs between a tick
    and the next check of the flag at the top of the loop, [Wait] leaves the
    loop and returns no error, although the error ring reports "boom" at
    that time.  Second, the bound counts from the heartbeat only when the
    waiter is polling by then: called 100 seconds after the last heartbeat
    (at instant 0), [Wait] returns "plugin is not active" at its first tick,
    105 seconds after the heartbeat. *)
Lemma Wait_returns_nil_or_late :
  (sys_wait <$>
     system_run (mkSystem example_globals example_holder AtEntry)
       [WaitDoes CheckFlag; WaitDoes CheckFlag;
        WaitDoes (RecvTick (5 * Second));
        ErrorWritten "boom" (6 * Second); StopCalled;
        WaitDoes CheckFlag]) = Some (Done None) ∧
  ((λ y, Error (sys_holder y) (6 * Second)) <$>
     system_run (mkSystem example_globals example_holder AtEntry)
       [WaitDoes CheckFlag; WaitDoes CheckFlag;
        WaitDoes (RecvTick (5 * Second));
        ErrorWritten "boom" (6 * Second); StopCalled;
        WaitDoes CheckFlag]) = Some (Some (errors_New "boom")) ∧
  last_active_at example_holder = 0 ∧
  Wait_quiet (100 * Second) 0 =
    [WaitDoes CheckFlag; WaitDoes CheckFlag;
     WaitDoes (RecvTick (105 * Second))] ∧
  (sys_wait <$>
     system_run (mkSystem example_globals example_holder AtEntry)
       (Wait_quiet (100 * Second) 0))
  = Some (Done (Some (errors_New "plugin is not active"))).
Proof. vm_compute. done. Qed.

(** C5 (amended).  Each poll, on a tick read at [now], returns the error
    "plugin is not active" when [now - last_active_at > 20s] and goes round
    the loop otherwise; when the [select] receives the termination signal,
    [Wait] returns what [Error] reports at that time.  The ticks come every
    5 seconds from the call: when [Wait] is called at most 20 seconds after
    the last heartbeat, no event arrives and the signal does not fire, it
    returns "plugin is not active" at a tick more than 20 and at most 25
    seconds after the heartbeat, and at no earlier tick. *)
Theorem Wait_polls_until_deadline (g : globals) (s : stdioHolder) :
  (∀ now,
     Wait_step s AtSelect (RecvTick now)
     = Some (if decide (now - last_active_at s > 20 * Second)
             then Done (Some (errors_New "plugin is not active"))
             else AtLoopTop)) ∧
  (∀ now, health_chan s = ChanClosed →
     Wait_step s AtSelect (RecvHealth now) = Some (Done (Error s now))) ∧
  (∀ c, health_chan_closed s = false →
     c <= last_active_at s + 20 * Second →
     ∃ n : nat,
       last_active_at s + 20 * Second
         < c + 5 * Second * (Z.of_nat n + 1)
         <= last_active_at s + 25 * Second ∧
       system_run (mkSystem g s AtEntry) (Wait_quiet c n)
       = Some (mkSystem g s
                 (Done (Some (errors_New "plugin is not active")))) ∧
       ∀ m, (m < n)%nat →
         system_run (mkSystem g s AtEntry) (Wait_quiet c m)
         = Some (mkSystem g s AtLoopTop)).
Proof.
  split; [|split].
  - intros now. simpl.
    pose proof (Since_gt now (last_active_at s) (20 * Second)) as Hs.
    repeat case_decide; try done.
    + exfalso. apply H0, Hs; [by vm_compute|done].
    + exfalso. apply H, Hs; [by vm_compute|done].
  - intros now Hch. simpl. by rewrite Hch.
  - intros c Hflag Hc.
    set (h := last_active_at s) in *.
    assert (Second = 1000000000) as HS by reflexivity.
    set (d := h + 20 * Second - c).
    assert (0 <= d) as Hd by (unfold d; lia).
    pose proof (Z.mul_div_le d (5 * Second) ltac:(lia)) as Hlo.
    pose proof (Z.mul_succ_div_gt d (5 * Second) ltac:(lia)) as Hhi.
    pose proof (Z.div_pos d (5 * Second) Hd ltac:(lia)) as Hq.
    set (q := d / (5 * Second)) in *.
    exists (Z.to_nat q).
    rewrite Z2Nat.id by done.
    assert (∀ m : nat, (m <= Z.to_nat q)%nat →
              system_run (mkSystem g s AtEntry)
                (WaitDoes CheckFlag :: polls (c + 5 * Second) m)
              = Some (mkSystem g s AtLoopTop)) as Hpass.
    { intros m Hm. simpl. rewrite Hflag. simpl.
      apply polls_pass; [done|]. fold h. unfold d in *. lia. }
    split; [unfold d in *; lia|]. split.
    + unfold Wait_quiet. rewrite polls_snoc, app_comm_cons, system_run_app.
      rewrite Hpass by lia. simpl sys_wait.
      change (Some (mkSystem g s AtLoopTop) ≫= _)
        with (system_run (mkSystem g s AtLoopTop)
                [WaitDoes CheckFlag;
                 WaitDoes (RecvTick (c + 5 * Second
                             + 5 * Second * Z.of_nat (Z.to_nat q)))]).
      rewrite poll_round by done.
      rewrite Z2Nat.id by done. fold h.
      rewrite decide_True; [done|]. unfold d in *. lia.
    + intros m Hm. unfold Wait_quiet. apply Hpass. lia.
Qed.

Lemma Wait_polls_until_deadline_witness :
  ∃ n : nat,
    last_active_at example_holder + 20 * Second
      < 3 * Second + 5 * Second * (Z.of_nat n + 1)
      <= last_active_at example_holder + 25 * Second ∧
    system_run (mkSystem example_globals example_holder AtEntry)
      (Wait_quiet (3 * Second) n)
    = Some (mkSystem example_globals example_holder
              (Done (Some (errors_New "plugin is not active")))) ∧
    ∀ m, (m < n)%nat →
      system_run (mkSystem example_globals example_holder AtEntry)
        (Wait_quiet (3 * Second) m)
      = Some (mkSystem example_globals example_holder AtLoopTop).
Proof.
  destruct (Wait_polls_until_deadline example_globals example_holder)
    as (_ & _ & H).
  apply (H (3 * Second)).
  - reflexivity.
  - by vm_compute.
Defined.

(** ** The stdout demultiplexer *)

Lemma session_loop_absent (session_id data : string)
    (visits : list (string * callback)) :
  (∀ f, (session_id, f) ∉ visits) →
  session_loop session_id data visits = [].
Proof.
  induction visits as [|[k f] rest IH]; intros Hno; [done|].
  simpl. rewrite decide_False.
  - simpl. apply IH. intros f' Hin. apply (Hno f'). by right.
  - intros ->. apply (Hno f). by left.
Qed.

Lemma session_loop_present (session_id data : string) (f : callback)
    (visits : list (string * callback)) :
  NoDup visits.*1 →
  (session_id, f) ∈ visits →
  session_loop session_id data visits = [CallSession session_id f data].
Proof.
  induction visits as [|[k f'] rest IH]; intros Hnd Hin.
  - by apply elem_of_nil in Hin.
  - simpl in Hnd. apply NoDup_cons in Hnd as [Hk Hnd].
    apply elem_of_cons in Hin as [Heq|Hin].
    + simplify_eq. simpl. rewrite decide_True by done.
      rewrite session_loop_absent; [done|].
      intros f'' Hin. apply Hk.
      apply (list_elem_of_fmap_2 fst) in Hin. done.
    + simpl. rewrite decide_False.
      * simpl. by apply IH.
      * intros ->. apply Hk.
        apply (list_elem_of_fmap_2 fst) in Hin. done.
Qed.

(** On the visits of a map, the loop calls the listener stored under the
    session id, if there is one, and no other. *)
Lemma session_loop_lookup (session_id data : string)
    (m : gmap string callback) (visits : list (string * callback)) :
  visits ≡ₚ map_to_list m →
  session_loop session_id data visits =
    match m !! session_id with
    | Some f => [CallSession session_id f data]
    | None => []
    end.
Proof.
  intros Hperm. destruct (m !! session_id) as [f|] eqn:Hm.
  - apply session_loop_present.
    + rewrite Hperm. apply NoDup_fst_map_to_list.
    + rewrite Hperm. by apply elem_of_map_to_list.
  - apply session_loop_absent. intros f Hin.
    rewrite Hperm in Hin. apply elem_of_map_to_list in Hin. congruence.
Qed.

(** C3, as stated, fails on the order of the broadcast calls: [range] over
    the map [listeners] may visit the two listeners in either order, so the
    same event on the same registrations is delivered to [l1] before [l2]
    in one run and to [l2] before [l1] in another; no order of registration
    is kept anywhere. *)
Lemma broadcast_order_not_fixed :
  let g := mkGlobals ∅ (<["l2" := 2%nat]> (<["l1" := 1%nat]> ∅)) in
  let it12 := mkIteration 0 [("l1", 1%nat); ("l2", 2%nat)] [] in
  let it21 := mkIteration 0 [("l2", 2%nat); ("l1", 1%nat)] [] in
  admissible g example_holder it12 ∧
  admissible g example_holder it21 ∧
  handle_line example_UnmarshalEvent example_UnmarshalLog
    example_holder it12 "s{}"
  = ([CallBroadcast "l1" 1%nat "holder-1" "{}";
      CallBroadcast "l2" 2%nat "holder-1" "{}"], example_holder) ∧
  handle_line example_UnmarshalEvent example_UnmarshalLog
    example_holder it21 "s{}"
  = ([CallBroadcast "l2" 2%nat "holder-1" "{}";
      CallBroadcast "l1" 1%nat "holder-1" "{}"], example_holder).
Proof.
  assert (map_to_list (<["l2" := 2%nat]> (<["l1" := 1%nat]> ∅)
                         : gmap string callback)
          ≡ₚ [("l2", 2%nat); ("l1", 1%nat)]) as Hperm.
  { rewrite map_to_list_insert by done.
    rewrite map_to_list_insert by done.
    by rewrite map_to_list_empty. }
  assert ([] ≡ₚ map_to_list (listener example_holder)) as Hnone.
  { change (listener example_holder) with (∅ : gmap string callback).
    by rewrite map_to_list_empty. }
  cbv zeta. unfold admissible. cbn [listeners range_listeners range_listener].
  split; [split; [|exact Hnone]|].
  { etrans; [apply perm_swap|]. by symmetry. }
  split; [split; [by symmetry|exact Hnone]|].
  split; reflexivity.
Qed.

(** C3 (amended).  On a decoded [SESSION] event the effects of the line are
    the broadcast calls followed by the per-session calls: every listener
    registered in [listeners] at that time is called once with the holder id
    and the data, in an order that is not determined; after them, the
    listener stored under the session id of the envelope, if there is one,
    is called with the data, and no other per-session listener is.  The
    holder is left as it was. *)
Theorem session_dispatch
    (UnmarshalEvent : string → error + PluginUniversalEvent)
    (UnmarshalLog : string → error + PluginLogEvent)
    (g : globals) (s : stdioHolder) (it : iteration) (data : string)
    (event : PluginUniversalEvent) :
  admissible g s it →
  len data ≠ 0 →
  UnmarshalEvent data = inr event →
  Event event = PLUGIN_EVENT_SESSION →
  ∃ broadcasts sessions,
    handle_line UnmarshalEvent UnmarshalLog s it data
      = (broadcasts ++ sessions, s) ∧
    broadcasts ≡ₚ
      map (λ kf, CallBroadcast kf.1 kf.2 (id s) (Data event))
        (map_to_list (listeners g)) ∧
    sessions =
      match listener s !! SessionId event with
      | Some f => [CallSession (SessionId event) f (Data event)]
      | None => []
      end.
Proof.
  intros [Hb Hs] Hlen Hdec Hev.
  exists (broadcast_loop (id s) (Data event) (range_listeners it)),
         (session_loop (SessionId event) (Data event) (range_listener it)).
  split; [|split].
  - unfold handle_line. rewrite decide_False by done.
    by rewrite Hdec, Hev.
  - unfold broadcast_loop. by apply Permutation_map.
  - by apply session_loop_lookup.
Qed.

Lemma example_iteration_admissible (now : Time) :
  admissible example_session_globals example_session_holder
    (example_iteration now).
Proof.
  split.
  - change (listeners example_session_globals)
      with (<["l1" := 1%nat]> ∅ : gmap string callback).
    rewrite map_to_list_insert by done. by rewrite map_to_list_empty.
  - change (listener example_session_holder)
      with (<["a" := 7%nat]> (<["b" := 8%nat]> ∅) : gmap string callback).
    rewrite map_to_list_insert by done.
    rewrite map_to_list_insert by done. by rewrite map_to_list_empty.
Defined.

Lemma session_dispatch_witness :
  ∃ broadcasts sessions,
    handle_line example_UnmarshalEvent example_UnmarshalLog
      example_session_holder (example_iteration 0) "s{}"
      = (broadcasts ++ sessions, example_session_holder) ∧
    broadcasts ≡ₚ
      map (λ kf, CallBroadcast kf.1 kf.2 (id example_session_holder) "{}")
        (map_to_list (listeners example_session_globals)) ∧
    sessions =
      match listener example_session_holder !! "a" with
      | Some f => [CallSession "a" f "{}"]
      | None => []
      end.
Proof.
  apply (session_dispatch example_UnmarshalEvent example_UnmarshalLog
           example_session_globals example_session_holder
           (example_iteration 0) "s{}"
           (mkEvent "a" PLUGIN_EVENT_SESSION "{}")).
  - apply example_iteration_admissible.
  - by vm_compute.
  - reflexivity.
  - reflexivity.
Defined.

(** C9.  An empty line leaves no effect and no change; so does a line that
    fails to decode (no log line, no change of [last_active_at], no error
    returned) and an envelope whose tag is unknown; a [LOG] envelope whose
    payload fails to decode leaves one error log line and no change.  In
    every case the loop goes on with the next line. *)
Theorem handle_line_discards
    (UnmarshalEvent : string → error + PluginUniversalEvent)
    (UnmarshalLog : string → error + PluginLogEvent)
    (s : stdioHolder) (it : iteration) (data : string)
    (rest : list (string * iteration)) :
  (len data = 0 →
     handle_line UnmarshalEvent UnmarshalLog s it data = ([], s)) ∧
  (∀ err, UnmarshalEvent data = inl err →
     handle_line UnmarshalEvent UnmarshalLog s it data = ([], s)) ∧
  (∀ event tag, UnmarshalEvent data = inr event →
     Event event = PLUGIN_EVENT_unknown tag →
     handle_line UnmarshalEvent UnmarshalLog s it data = ([], s)) ∧
  (∀ event err, len data ≠ 0 → UnmarshalEvent data = inr event →
     Event event = PLUGIN_EVENT_LOG →
     UnmarshalLog (Data event) = inl err →
     handle_line UnmarshalEvent UnmarshalLog s it data
       = ([LogError ("unmarshal json failed: " +:+ error_text err)], s)) ∧
  (handle_line UnmarshalEvent UnmarshalLog s it data = ([], s) →
     scan_loop UnmarshalEvent UnmarshalLog s ((data, it) :: rest)
       = scan_loop UnmarshalEvent UnmarshalLog s rest) ∧
  (∀ tr, handle_line UnmarshalEvent UnmarshalLog s it data = (tr, s) →
     scan_loop UnmarshalEvent UnmarshalLog s ((data, it) :: rest)
       = (tr ++ (scan_loop UnmarshalEvent UnmarshalLog s rest).1,
          (scan_loop UnmarshalEvent UnmarshalLog s rest).2)).
Proof.
  repeat split.
  - intros Hlen. unfold handle_line. by rewrite decide_True.
  - intros err Hdec. unfold handle_line. rewrite Hdec. by case_decide.
  - intros event tag Hdec Hev. unfold handle_line. rewrite Hdec, Hev.
    by case_decide.
  - intros event err Hlen Hdec Hev Hlog. unfold handle_line.
    rewrite decide_False by done. by rewrite Hdec, Hev, Hlog.
  - intros Hh. simpl. rewrite Hh. simpl.
    by destruct (scan_loop UnmarshalEvent UnmarshalLog s rest).
  - intros tr Hh. simpl. by rewrite Hh.
Qed.

Lemma handle_line_discards_witness :
  handle_line example_UnmarshalEvent example_UnmarshalLog
    example_session_holder (example_iteration 0) "not json"
    = ([], example_session_holder) ∧
  scan_loop example_UnmarshalEvent example_UnmarshalLog
    example_session_holder
    [("not json", example_iteration 0); ("s{}", example_iteration 1)]
  = scan_loop example_UnmarshalEvent example_UnmarshalLog
      example_session_holder [("s{}", example_iteration 1)] ∧
  handle_line example_UnmarshalEvent example_UnmarshalLog
    example_session_holder (example_iteration 0) "lnot json"
    = ([LogError "unmarshal json failed: unexpected end of JSON input"],
       example_session_holder).
Proof.
  destruct (handle_line_discards example_UnmarshalEvent example_UnmarshalLog
              example_session_holder (example_iteration 0) "not json"
              [("s{}", example_iteration 1)])
    as (_ & Hbad & _ & _ & Hnext & _).
  destruct (handle_line_discards example_UnmarshalEvent example_UnmarshalLog
              example_session_holder (example_iteration 0) "lnot json" [])
    as (_ & _ & _ & Hlog & _).
  split; [|split].
  - apply (Hbad (errors_New "invalid character")). reflexivity.
  - apply Hnext. reflexivity.
  - apply (Hlog (mkEvent "" PLUGIN_EVENT_LOG "not json")
             (errors_New "unexpected end of JSON input"));
      [by vm_compute|reflexivity..].
Defined.

Lemma set_last_active_at_self (s : stdioHolder) :
  set_last_active_at (last_active_at s) s = s.
Proof. by destruct s. Qed.

Section Liveness.

Variable UnmarshalEvent : string → error + PluginUniversalEvent.
Variable UnmarshalLog : string → error + PluginLogEvent.

Abbreviation handle := (handle_line UnmarshalEvent UnmarshalLog).
Abbreviation scan := (scan_loop UnmarshalEvent UnmarshalLog).

(** A line leaves the holder as it is, unless it is a heartbeat. *)
Lemma handle_line_holder (s : stdioHolder) (it : iteration) (data : string) :
  (handle s it data).2 = s ∨
  (∃ event, len data ≠ 0 ∧ UnmarshalEvent data = inr event ∧
            Event event = PLUGIN_EVENT_HEARTBEAT ∧
            handle s it data = ([], set_last_active_at (it_now it) s)).
Proof.
  unfold handle_line. case_decide as Hlen; [by left|].
  destruct (UnmarshalEvent data) as [err|event] eqn:Hdec; [by left|].
  destruct (Event event) eqn:Hev; try (by left).
  - destruct (UnmarshalLog (Data event)); by left.
  - right. by exists event.
Qed.

Lemma handle_line_last_active (s : stdioHolder) (it : iteration) (data : string) :
  last_active_at (handle s it data).2 = last_active_at s ∨
  last_active_at (handle s it data).2 = it_now it.
Proof.
  destruct (handle_line_holder s it data) as [->|(ev & _ & _ & _ & ->)];
    [by left|by right].
Qed.

Lemma scan_loop_app (s : stdioHolder) (pre post : list (string * iteration)) :
  (scan s (pre ++ post)).2 = (scan (scan s pre).2 post).2.
Proof.
  revert s. induction pre as [|[data it] pre IH]; intros s; [done|].
  simpl. apply IH.
Qed.

Lemma clock_from_app (t : Time) (pre post : list (string * iteration)) :
  clock_from t (pre ++ post) →
  clock_from t pre ∧ clock_from (last_reading t pre) post.
Proof.
  revert t. induction pre as [|[data it] pre IH]; intros t H; [done|].
  simpl in *. destruct H as [Ht H]. by destruct (IH _ H).
Qed.

Lemma scan_loop_bounds (script : list (string * iteration))
    (s : stdioHolder) (t : Time) :
  last_active_at s <= t →
  clock_from t script →
  last_active_at s <= last_active_at (scan s script).2
    <= last_reading t script.
Proof.
  revert s t. induction script as [|[data it] rest IH]; intros s t Hs Hc.
  - simpl. lia.
  - simpl in *. destruct Hc as [Ht Hc].
    pose proof (handle_line_last_active s it data) as Hla.
    specialize (IH (handle s it data).2 (it_now it) ltac:(lia) Hc).
    lia.
Qed.

Lemma handle_line_state (s : stdioHolder) (it : iteration) (data : string) :
  (handle s it data).2 =
    set_last_active_at
      (if is_heartbeat UnmarshalEvent data then it_now it
       else last_active_at s) s.
Proof.
  unfold handle_line, is_heartbeat.
  case_decide; [by rewrite set_last_active_at_self|].
  destruct (UnmarshalEvent data) as [err|event];
    [by rewrite set_last_active_at_self|].
  destruct (Event event); simpl; try done;
    try (by rewrite set_last_active_at_self).
  destruct (UnmarshalLog (Data event)); by rewrite set_last_active_at_self.
Qed.

Lemma scan_loop_state (script : list (string * iteration)) (s : stdioHolder) :
  (scan s script).2 =
    set_last_active_at
      (last_heartbeat UnmarshalEvent (last_active_at s) script) s.
Proof.
  revert s. induction script as [|[data it] rest IH]; intros s.
  - simpl. by rewrite set_last_active_at_self.
  - simpl. rewrite IH, handle_line_state. done.
Qed.

Lemma is_heartbeat_true (data : string) :
  is_heartbeat UnmarshalEvent data = true ↔
  len data ≠ 0 ∧
  ∃ event, UnmarshalEvent data = inr event ∧
           Event event = PLUGIN_EVENT_HEARTBEAT.
Proof.
  unfold is_heartbeat. case_decide as Hlen.
  - split; [done|]. by intros [? _].
  - destruct (UnmarshalEvent data) as [err|event].
    + split; [done|]. by intros (_ & ev & ? & _).
    + destruct (Event event) eqn:Hev; split; try done.
      all: try (intros (_ & ev & Hd & He); simplify_eq; congruence).
      intros _. split; [done|]. by exists event.
Qed.

Lemma last_heartbeat_app (t : Time) (pre post : list (string * iteration)) :
  last_heartbeat UnmarshalEvent t (pre ++ post) =
    last_heartbeat UnmarshalEvent (last_heartbeat UnmarshalEvent t pre) post.
Proof.
  revert t. induction pre as [|[data it] pre IH]; intros t; [done|].
  simpl. apply IH.
Qed.

Lemma last_heartbeat_none (t : Time) (script : list (string * iteration)) :
  Forall (λ di, is_heartbeat UnmarshalEvent di.1 = false) script →
  last_heartbeat UnmarshalEvent t script = t.
Proof.
  induction script as [|[data it] rest IH]; intros Hall; [done|].
  apply Forall_cons in Hall as [Hd Hrest]. simpl in *.
  rewrite Hd. by apply IH.
Qed.

(** C4.  A line that decodes to a [HEARTBEAT] sets [last_active_at] to the
    clock reading of its iteration and has no other effect: the trace is
    empty and every other field of the holder keeps its value.  An empty
    line, a line that fails to decode and an event with any other tag
    ([LOG], [SESSION], [ERROR], unknown) leave the holder, hence
    [last_active_at], as it is.  So, after any sequence of lines,
    [last_active_at] is the clock reading of the last line that decoded to a
    [HEARTBEAT], and the old value when there is none: after a heartbeat
    followed by lines that are no heartbeats it is the reading of that
    heartbeat, and a sequence without heartbeat leaves the holder as it was.
    When the clock does not run backwards, [last_active_at] never decreases
    along the lines of a stream.  It changes nowhere else: [WriteError], an
    iteration of [StartStderr], [Stop] and the steps of [Wait] leave it as it
    is. *)
Theorem last_active_at_only_heartbeat
    (s : stdioHolder) (it : iteration) (data : string) :
  (∀ event, len data ≠ 0 → UnmarshalEvent data = inr event →
     Event event = PLUGIN_EVENT_HEARTBEAT →
     handle s it data = ([], set_last_active_at (it_now it) s)) ∧
  (∀ event, len data ≠ 0 → UnmarshalEvent data = inr event →
     Event event = PLUGIN_EVENT_HEARTBEAT →
     last_active_at (handle s it data).2 = it_now it ∧
     handle s it data =
       ([], mkHolder (id s) (plugin_identity s) (writer s) (reader s)
              (err_reader s) (listener s) (error_listener s) (started s)
              (err_message s) (last_err_message_updated_at s)
              (health_chan s) (health_chan_closed s) (it_now it))) ∧
  (len data = 0 → (handle s it data).2 = s) ∧
  (∀ err, UnmarshalEvent data = inl err → (handle s it data).2 = s) ∧
  (∀ event, UnmarshalEvent data = inr event →
     Event event ≠ PLUGIN_EVENT_HEARTBEAT → (handle s it data).2 = s) ∧
  (is_heartbeat UnmarshalEvent data = true ↔
     len data ≠ 0 ∧
     ∃ event, UnmarshalEvent data = inr event ∧
              Event event = PLUGIN_EVENT_HEARTBEAT) ∧
  (∀ script,
     last_active_at (scan s script).2
       = last_heartbeat UnmarshalEvent (last_active_at s) script ∧
     (scan s script).2 =
       mkHolder (id s) (plugin_identity s) (writer s) (reader s)
         (err_reader s) (listener s) (error_listener s) (started s)
         (err_message s) (last_err_message_updated_at s)
         (health_chan s) (health_chan_closed s)
         (last_heartbeat UnmarshalEvent (last_active_at s) script)) ∧
  (∀ pre beat it_beat post,
     is_heartbeat UnmarshalEvent beat = true →
     Forall (λ di, is_heartbeat UnmarshalEvent di.1 = false) post →
     last_active_at (scan s (pre ++ (beat, it_beat) :: post)).2
       = it_now it_beat) ∧
  (∀ script,
     Forall (λ di, is_heartbeat UnmarshalEvent di.1 = false) script →
     (scan s script).2 = s) ∧
  (∀ pre post, clock_from (last_active_at s) (pre ++ post) →
     last_active_at s <= last_active_at (scan s pre).2
       <= last_active_at (scan s (pre ++ post)).2) ∧
  (∀ msg now s', WriteError s msg now = Some s' →
     last_active_at s' = last_active_at s) ∧
  (∀ r now s' ctl, StartStderr_iter s r now = Some (s', ctl) →
     last_active_at s' = last_active_at s) ∧
  (∀ g tr g' s', Stop g s = Some (tr, g', s') →
     last_active_at s' = last_active_at s) ∧
  (∀ g pc st y, system_step (mkSystem g s pc) (WaitDoes st) = Some y →
     sys_holder y = s).
Proof.
  assert (∀ msg now s', WriteError s msg now = Some s' →
            last_active_at s' = last_active_at s) as Hwrite.
  { intros msg now s' Hw. unfold WriteError in Hw.
    destruct (if decide (WriteError_reduce s msg > 0)
              then slice_from (err_message s) (WriteError_reduce s msg)
              else Some (err_message s)); by simplify_eq/=. }
  assert (∀ event, len data ≠ 0 → UnmarshalEvent data = inr event →
            Event event = PLUGIN_EVENT_HEARTBEAT →
            handle s it data = ([], set_last_active_at (it_now it) s))
    as Hbeat.
  { intros event Hlen Hdec Hev. unfold handle_line.
    rewrite decide_False by done. by rewrite Hdec, Hev. }
  split; [exact Hbeat|].
  split.
  { intros event Hlen Hdec Hev. by rewrite (Hbeat event Hlen Hdec Hev). }
  split.
  { intros Hlen. unfold handle_line. by rewrite decide_True. }
  split.
  { intros err Hdec. unfold handle_line. rewrite Hdec. by case_decide. }
  split.
  { intros event Hdec Hev.
    destruct (handle_line_holder s it data)
      as [H|(ev & _ & Hdec' & Hev' & _)]; [done|].
    congruence. }
  split; [apply is_heartbeat_true|].
  split.
  { intros script. by rewrite scan_loop_state. }
  split.
  { intros pre beat it_beat post Hb Hpost.
    rewrite scan_loop_state. simpl last_active_at.
    rewrite last_heartbeat_app. simpl. rewrite Hb.
    by apply last_heartbeat_none. }
  split.
  { intros script Hnone. rewrite scan_loop_state.
    rewrite last_heartbeat_none by done. apply set_last_active_at_self. }
  split.
  { intros pre post Hc. apply clock_from_app in Hc as [Hpre Hpost].
    pose proof (scan_loop_bounds pre s (last_active_at s) ltac:(lia) Hpre)
      as [H1 H2].
    rewrite scan_loop_app.
    pose proof (scan_loop_bounds post (scan s pre).2
                  (last_reading (last_active_at s) pre) H2 Hpost) as [H3 _].
    lia. }
  split; [exact Hwrite|].
  split.
  { intros r now s' ctl Hi. unfold StartStderr_iter in Hi.
    destruct (rd_err r) as [[|txt]|].
    - destruct (WriteError s (rd_data r +:+ newline) now) as [s1|] eqn:Hw;
        simplify_eq/=. by eapply Hwrite.
    - by simplify_eq.
    - case_decide; [|by simplify_eq].
      destruct (WriteError s (rd_data r +:+ newline) now) as [s1|] eqn:Hw;
        simplify_eq/=. by eapply Hwrite. }
  split.
  { intros g tr g' s' Hstop. unfold Stop in Hstop. simpl in Hstop.
    destruct (health_chan_closed s); simpl in Hstop; [by simplify_eq|].
    destruct (close (health_chan s)); by simplify_eq/=. }
  intros g pc st y Hstep. simpl in Hstep.
  destruct (Wait_step s pc st); by simplify_eq/=.
Qed.

End Liveness.

Lemma last_active_at_only_heartbeat_witness :
  handle_line example_UnmarshalEvent example_UnmarshalLog
    example_session_holder (example_iteration 5) "h"
  = ([], set_last_active_at 5 example_session_holder) ∧
  last_active_at
    (handle_line example_UnmarshalEvent example_UnmarshalLog
       example_session_holder (example_iteration 5) "h").2 = 5 ∧
  (handle_line example_UnmarshalEvent example_UnmarshalLog
     example_session_holder (example_iteration 5) "s{}").2
  = example_session_holder ∧
  last_active_at
    (scan_loop example_UnmarshalEvent example_UnmarshalLog
       example_session_holder
       ([("h", example_iteration 5); ("s{}", example_iteration 6)]
          ++ ("h", example_iteration 9)
          :: [("s[1]", example_iteration 10);
              ("not json", example_iteration 11)])).2 = 9 ∧
  (scan_loop example_UnmarshalEvent example_UnmarshalLog
     example_session_holder
     [("s{}", example_iteration 6); ("e{}", example_iteration 7)]).2
  = example_session_holder ∧
  last_active_at example_session_holder
    <= last_active_at
         (scan_loop example_UnmarshalEvent example_UnmarshalLog
            example_session_holder
            [("h", example_iteration 5); ("s{}", example_iteration 6)]).2
    <= last_active_at
         (scan_loop example_UnmarshalEvent example_UnmarshalLog
            example_session_holder
            ([("h", example_iteration 5); ("s{}", example_iteration 6)]
               ++ [("h", example_iteration 9)])).2.
Proof.
  destruct (last_active_at_only_heartbeat
              example_UnmarshalEvent example_UnmarshalLog
              example_session_holder (example_iteration 5) "h")
    as (Hbeat & Hvalue & _ & _ & _ & _ & _ & Hlast & Hnone & Hmono & _).
  destruct (last_active_at_only_heartbeat
              example_UnmarshalEvent example_UnmarshalLog
              example_session_holder (example_iteration 5) "s{}")
    as (_ & _ & _ & _ & Hother & _).
  split; [|split; [|split; [|split; [|split]]]].
  - apply (Hbeat (mkEvent "" PLUGIN_EVENT_HEARTBEAT ""));
      [by vm_compute|reflexivity..].
  - apply (Hvalue (mkEvent "" PLUGIN_EVENT_HEARTBEAT ""));
      [by vm_compute|reflexivity..].
  - apply (Hother (mkEvent "a" PLUGIN_EVENT_SESSION "{}"));
      [reflexivity|done].
  - apply (Hlast [("h", example_iteration 5); ("s{}", example_iteration 6)]
             "h" (example_iteration 9)
             [("s[1]", example_iteration 10);
              ("not json", example_iteration 11)]);
      [reflexivity|repeat constructor].
  - apply Hnone. repeat constructor.
  - apply Hmono. by vm_compute.
Defined.

(** ** The stderr collector *)

(** C2, as stated, fails on two of its exits.  At the end of the stream
    with [n == 0] the iteration still calls [WriteError], with the newline
    alone, so the ring changes before the loop is left.  On a read that
    fails with another error the loop is left at once, and the three bytes
    read are not appended. *)
Lemma StartStderr_exits_differ :
  StartStderr_iter example_holder (mkRead "" (Some EOF)) 7
    = Some (set_err_message newline 7 example_holder, Break) ∧
  err_message (set_err_message newline 7 example_holder)
    ≠ err_message example_holder ∧
  len (rd_data (mkRead "abc" (Some (io_failure "file already closed")))) = 3 ∧
  StartStderr_iter example_holder
    (mkRead "abc" (Some (io_failure "file already closed"))) 7
    = Some (example_holder, Break).
Proof. by vm_compute. Qed.

(** C2 (amended).  A read that fails with an error other than the end of
    the stream leaves the loop without an append, whatever was read.  A read
    of [0 < n < 1024] bytes that reports the end of the stream appends the
    bytes and a newline to the ring, then leaves the loop.  A read of
    [0 < n < 1024] bytes without error appends the bytes and a newline, and
    the loop goes on with the next read; an empty read without error appends
    nothing and the loop goes on. *)
Theorem StartStderr_iter_exits
    (s : stdioHolder) (r : read_result) (now : Time)
    (rest : list (read_result * Time)) :
  (∀ txt, rd_err r = Some (io_failure txt) →
     StartStderr_iter s r now = Some (s, Break) ∧
     StartStderr s ((r, now) :: rest) = Returned s) ∧
  (rd_err r = Some EOF → 0 < len (rd_data r) < 1024 →
     ∃ s', WriteError s (rd_data r +:+ newline) now = Some s' ∧
           err_message s' =
             string_last 1024 (err_message s +:+ rd_data r +:+ newline) ∧
           StartStderr_iter s r now = Some (s', Break) ∧
           StartStderr s ((r, now) :: rest) = Returned s') ∧
  (rd_err r = None → 0 < len (rd_data r) < 1024 →
     ∃ s', WriteError s (rd_data r +:+ newline) now = Some s' ∧
           err_message s' =
             string_last 1024 (err_message s +:+ rd_data r +:+ newline) ∧
           StartStderr_iter s r now = Some (s', Continue) ∧
           StartStderr s ((r, now) :: rest) = StartStderr s' rest) ∧
  (rd_err r = None → len (rd_data r) = 0 →
     StartStderr_iter s r now = Some (s, Continue) ∧
     StartStderr s ((r, now) :: rest) = StartStderr s rest).
Proof.
  assert (0 < len (rd_data r) < 1024 →
          WriteError s (rd_data r +:+ newline) now =
            Some (set_err_message
                    (string_last 1024
                       (err_message s +:+ rd_data r +:+ newline)) now s))
    as Hw.
  { intros Hn. apply WriteError_window.
    rewrite len_app, len_newline. unfold MAX_ERR_MSG_LEN. lia. }
  split; [|split; [|split]].
  - intros txt He. simpl. unfold StartStderr_iter. by rewrite He.
  - intros He Hn. eexists. split; [by apply Hw|]. split; [done|].
    simpl. unfold StartStderr_iter. by rewrite He, Hw.
  - intros He Hn. eexists. split; [by apply Hw|]. split; [done|].
    simpl. unfold StartStderr_iter. rewrite He.
    rewrite decide_True by lia. by rewrite Hw.
  - intros He Hn. simpl. unfold StartStderr_iter. rewrite He.
    by rewrite decide_False by lia.
Qed.

Lemma StartStderr_iter_exits_witness :
  (StartStderr_iter example_holder
     (mkRead "abc" (Some (io_failure "file already closed"))) 7
     = Some (example_holder, Break) ∧
   StartStderr example_holder
     [(mkRead "abc" (Some (io_failure "file already closed")), 7)]
     = Returned example_holder) ∧
  (∃ s', WriteError example_holder ("abc" +:+ newline) 7 = Some s' ∧
         err_message s' =
           string_last 1024
             (err_message example_holder +:+ "abc" +:+ newline) ∧
         StartStderr_iter example_holder (mkRead "abc" None) 7
           = Some (s', Continue) ∧
         StartStderr example_holder
           [(mkRead "abc" None, 7); (mkRead "" (Some EOF), 8)]
           = StartStderr s' [(mkRead "" (Some EOF), 8)]).
Proof.
  split.
  - destruct (StartStderr_iter_exits example_holder
                (mkRead "abc" (Some (io_failure "file already closed"))) 7 [])
      as (H & _).
    apply (H "file already closed"). reflexivity.
  - destruct (StartStderr_iter_exits example_holder (mkRead "abc" None) 7
                [(mkRead "" (Some EOF), 8)]) as (_ & _ & H & _).
    apply H; [reflexivity|by vm_compute].
Defined.

(** * Further properties *)

(** ** The error ring and its collector *)

Lemma string_drop_all (a : string) : string_drop (String.length a) a = "".
Proof. induction a as [|c a IH]; simpl; done. Qed.

Lemma string_last_app_r (a b : string) :
  string_last (String.length b) (a +:+ b) = b.
Proof.
  unfold string_last. rewrite string_length_app.
  replace (String.length a + String.length b - String.length b)%nat
    with (String.length a) by lia.
  rewrite string_drop_app_le by lia. by rewrite string_drop_all.
Qed.

Lemma string_last_last (n m : nat) (x : string) :
  (n <= m)%nat → string_last n (string_last m x) = string_last n x.
Proof.
  intros Hnm. unfold string_last.
  rewrite string_drop_drop, string_length_drop. f_equal. lia.
Qed.

(** X1.  After any sequence of calls of [WriteError] whose messages have at
    most 1024 bytes each, on a ring of at most 1024 bytes, every call has
    returned, and the ring holds the last 1024 bytes of the old ring followed
    by the messages in the order of the calls: all of them when they are
    fewer.  Its length is the smaller of that total and 1024. *)
Theorem WriteError_rolling_window
    (msgs : list (string * Time)) (s : stdioHolder) :
  Forall (λ m, len m.1 <= MAX_ERR_MSG_LEN) msgs →
  (String.length (err_message s) <= 1024)%nat →
  ∃ s', WriteError_all s msgs = Some s' ∧
        err_message s' =
          string_last 1024 (err_message s +:+ string_concat msgs.*1) ∧
        String.length (err_message s') =
          ((String.length (err_message s)
            + String.length (string_concat msgs.*1)) `min` 1024)%nat.
Proof.
  intros Hall Hs.
  destruct (WriteError_all_window msgs s Hall Hs) as (s' & Hrun & Hwin & _).
  exists s'. split; [done|]. split; [done|].
  by rewrite Hwin, string_length_last, string_length_app.
Qed.

Lemma WriteError_rolling_window_witness :
  ∃ s', WriteError_all example_holder
          [(string_repeat "a" 1000, 1); (string_repeat "b" 1000, 2)]
        = Some s' ∧
        err_message s' =
          string_last 1024
            (err_message example_holder +:+
             string_concat [string_repeat "a" 1000; string_repeat "b" 1000]) ∧
        String.length (err_message s') =
          ((String.length (err_message example_holder)
            + String.length
                (string_concat
                   [string_repeat "a" 1000; string_repeat "b" 1000]))
             `min` 1024)%nat.
Proof.
  apply (WriteError_rolling_window
           [(string_repeat "a" 1000, 1); (string_repeat "b" 1000, 2)]
           example_holder).
  - repeat constructor; by vm_compute.
  - simpl. lia.
Defined.

(** X2.  A call of [WriteError] with a message of at most 1024 bytes keeps
    the whole message: the new ring ends with it, whatever had to be dropped
    from the old ring; the time of the last update is the clock reading of
    the call. *)
Theorem WriteError_keeps_new_message
    (s : stdioHolder) (msg : string) (now : Time) :
  len msg <= MAX_ERR_MSG_LEN →
  ∃ s', WriteError s msg now = Some s' ∧
        string_last (String.length msg) (err_message s') = msg ∧
        String.length (err_message s') =
          ((String.length (err_message s) + String.length msg)
             `min` 1024)%nat ∧
        last_err_message_updated_at s' = now.
Proof.
  intros Hle. eexists. split; [by apply WriteError_window|].
  simpl. split; [|split; [|done]].
  - rewrite string_last_last, string_last_app_r; [done|].
    unfold len, MAX_ERR_MSG_LEN in Hle. lia.
  - by rewrite string_length_last, string_length_app.
Qed.

Lemma WriteError_keeps_new_message_witness :
  ∃ s', WriteError (set_err_message (string_repeat "a" 1024) 0 example_holder)
          "boom" 5 = Some s' ∧
        string_last (String.length "boom") (err_message s') = "boom" ∧
        String.length (err_message s') =
          ((String.length
              (err_message
                 (set_err_message (string_repeat "a" 1024) 0%Z
                    example_holder))
            + String.length "boom") `min` 1024)%nat ∧
        last_err_message_updated_at s' = 5.
Proof.
  apply (WriteError_keeps_new_message
           (set_err_message (string_repeat "a" 1024) 0 example_holder)
           "boom" 5).
  by vm_compute.
Defined.

(** What [WriteError] leaves alone. *)
Lemma WriteError_frame (s s' : stdioHolder) (msg : string) (now : Time) :
  WriteError s msg now = Some s' →
  s' = set_err_message (err_message s') now s.
Proof.
  unfold WriteError. intros Hw.
  destruct (if decide (WriteError_reduce s msg > 0)
            then slice_from (err_message s) (WriteError_reduce s msg)
            else Some (err_message s)); by simplify_eq/=.
Qed.

Lemma StartStderr_window_aux (script : list (read_result * Time))
    (s : stdioHolder) :
  Forall (λ rt, len (rd_data rt.1) < 1024) script →
  (String.length (err_message s) <= 1024)%nat →
  ∃ s', StartStderr s script
          = (if reaches_exit script then Returned s' else Blocked s') ∧
        err_message s' =
          string_last 1024 (err_message s +:+ collected script) ∧
        (String.length (err_message s') <= 1024)%nat ∧
        s' = set_err_message (err_message s')
               (last_err_message_updated_at s') s.
Proof.
  assert (∀ s0 : stdioHolder,
            s0 = set_err_message (err_message s0)
                   (last_err_message_updated_at s0) s0) as Hself.
  { by intros []. }
  assert (∀ (s0 : stdioHolder) (r : read_result) (now : Time),
            len (rd_data r) < 1024 →
            WriteError s0 (rd_data r +:+ newline) now =
              Some (set_err_message
                      (string_last 1024
                         (err_message s0 +:+ rd_data r +:+ newline)) now s0))
    as Hw.
  { intros s0 r now Hn. apply WriteError_window.
    rewrite len_app, len_newline. unfold MAX_ERR_MSG_LEN. lia. }
  revert s. induction script as [|[r now] rest IH]; intros s Hall Hs.
  - exists s. simpl. rewrite string_app_nil_r.
    split; [done|]. split; [by rewrite string_last_all|]. split; [done|].
    apply Hself.
  - apply Forall_cons in Hall as [Hr Hrest]. simpl in Hr.
    simpl. unfold StartStderr_iter.
    destruct (rd_err r) as [[|txt]|] eqn:He.
    + rewrite Hw by done. simpl. eexists. split; [done|]. simpl.
      split; [done|]. split; [|done].
      rewrite string_length_last. lia.
    + exists s. rewrite string_app_nil_r.
      split; [done|]. split; [by rewrite string_last_all|]. split; [done|].
      apply Hself.
    + case_decide as Hn.
      * rewrite Hw by done. simpl.
        destruct (IH (set_err_message
                        (string_last 1024
                           (err_message s +:+ rd_data r +:+ newline)) now s))
          as (s' & Hrun & Hwin & Hlen & Hfr); [done| |].
        { simpl. rewrite string_length_last. lia. }
        exists s'. split; [done|]. split; [|split; [done|]].
        -- rewrite Hwin. simpl.
           by rewrite string_last_app_last, !string_app_assoc.
        -- rewrite Hfr at 1. by destruct s.
      * simpl. rewrite string_app_nil_l. by apply IH.
Qed.

(** X3.  When every read delivers fewer than 1024 bytes, the collector
    does not panic: it returns once a read reports an error and is blocked
    in [Read] otherwise.  The ring then holds the last 1024 bytes of the old
    ring followed by the non-empty reads and the read that reported the end
    of the stream, each with a newline after it, and nothing of a read that
    failed.  No other field of the holder than the ring and the time of its
    last update has changed. *)
Theorem StartStderr_ring_contents
    (script : list (read_result * Time)) (s : stdioHolder) :
  Forall (λ rt, len (rd_data rt.1) < 1024) script →
  (String.length (err_message s) <= 1024)%nat →
  ∃ s', StartStderr s script
          = (if reaches_exit script then Returned s' else Blocked s') ∧
        err_message s' =
          string_last 1024 (err_message s +:+ collected script) ∧
        s' = set_err_message (err_message s')
               (last_err_message_updated_at s') s.
Proof.
  intros Hall Hs.
  destruct (StartStderr_window_aux script s Hall Hs)
    as (s' & Hrun & Hwin & _ & Hfr).
  by exists s'.
Qed.

Lemma StartStderr_ring_contents_witness :
  ∃ s', StartStderr example_holder
          [(mkRead "warn" None, 1); (mkRead "" None, 2);
           (mkRead "bye" (Some EOF), 3); (mkRead "late" None, 4)]
        = Returned s' ∧
        err_message s' =
          string_last 1024
            ("" +:+ ("warn" +:+ newline) +:+ "" +:+ ("bye" +:+ newline)) ∧
        s' = set_err_message (err_message s')
               (last_err_message_updated_at s') example_holder.
Proof.
  apply (StartStderr_ring_contents
           [(mkRead "warn" None, 1); (mkRead "" None, 2);
            (mkRead "bye" (Some EOF), 3); (mkRead "late" None, 4)]
           example_holder).
  - repeat constructor; by vm_compute.
  - simpl. lia.
Defined.

(** X4.  When no read delivers more than the 1024 bytes of the buffer, the
    collector panics if and only if a read that fills the buffer is handed to
    [WriteError], that is, comes without error or with the end of the
    stream, before the loop is left. *)
Theorem StartStderr_panics_iff
    (script : list (read_result * Time)) (s : stdioHolder) :
  Forall (λ rt, read_fits rt.1) script →
  (StartStderr s script = Panicked ↔ reaches_full_read script = true).
Proof.
  assert (∀ (s0 : stdioHolder) (r : read_result) (now : Time),
            read_fits r →
            (WriteError s0 (rd_data r +:+ newline) now = None
             ↔ String.length (rd_data r) = BUF_SIZE)) as Hw.
  { intros s0 r now Hfit. rewrite WriteError_None_iff.
    rewrite len_app, len_newline.
    unfold read_fits, len, MAX_ERR_MSG_LEN, BUF_SIZE in *. lia. }
  revert s. induction script as [|[r now] rest IH]; intros s Hall.
  - simpl. split; done.
  - apply Forall_cons in Hall as [Hr Hrest]. simpl in Hr.
    simpl. unfold StartStderr_iter.
    destruct (rd_err r) as [[|txt]|] eqn:He.
    + specialize (Hw s r now Hr).
      destruct (WriteError s (rd_data r +:+ newline) now) as [s1|]; simpl.
      * rewrite bool_decide_eq_true. split; [done|].
        intros Hfull. apply Hw in Hfull. done.
      * rewrite bool_decide_eq_true. split; [|done].
        intros _. by apply Hw.
    + split; done.
    + case_decide as Hn.
      * specialize (Hw s r now Hr).
        destruct (WriteError s (rd_data r +:+ newline) now) as [s1|]; simpl.
        -- rewrite bool_decide_eq_false_2; [by apply IH|].
           intros Hfull. apply Hw in Hfull. done.
        -- rewrite bool_decide_eq_true_2; [done|]. by apply Hw.
      * rewrite bool_decide_eq_false_2; [by apply IH|].
        unfold len, BUF_SIZE in *. lia.
Qed.

Lemma StartStderr_panics_iff_witness :
  StartStderr example_holder
    [(mkRead "warn" None, 1); (mkRead (string_repeat "x" 1024) None, 2)]
  = Panicked ∧
  StartStderr example_holder
    [(mkRead "warn" None, 1);
     (mkRead "gone" (Some (io_failure "file already closed")), 2);
     (mkRead (string_repeat "x" 1024) None, 3)]
  ≠ Panicked.
Proof.
  split.
  - apply (StartStderr_panics_iff
             [(mkRead "warn" None, 1);
              (mkRead (string_repeat "x" 1024) None, 2)] example_holder).
    + repeat constructor; unfold read_fits; by vm_compute.
    + by vm_compute.
  - intros Hp.
    apply (StartStderr_panics_iff
             [(mkRead "warn" None, 1);
              (mkRead "gone" (Some (io_failure "file already closed")), 2);
              (mkRead (string_repeat "x" 1024) None, 3)] example_holder)
      in Hp.
    + by vm_compute in Hp.
    + repeat constructor; unfold read_fits; by vm_compute.
Defined.

Lemma Error_Some_fresh (s : stdioHolder) (now : Time) :
  now - last_err_message_updated_at s < 60 * Second →
  err_message s ≠ "" →
  Error s now = Some (errors_New (err_message s)).
Proof.
  intros Hlt Hne. unfold Error.
  rewrite decide_True; [by rewrite decide_True|].
  apply Since_lt; [by vm_compute|done].
Qed.

(** X5.  When a read of fewer than 1024 bytes reports the end of the
    stream at the instant [t], the collector leaves the loop with a ring that
    ends with a newline, and for the 60 seconds after [t] [Error] reports
    that ring as an error; this holds also when the ring was empty and the
    read delivered nothing, where the error text is the newline alone. *)
Theorem Error_after_end_of_stream
    (s : stdioHolder) (r : read_result) (t : Time) :
  rd_err r = Some EOF →
  len (rd_data r) < 1024 →
  ∃ s', StartStderr_iter s r t = Some (s', Break) ∧
        string_last 1 (err_message s') = newline ∧
        (err_message s = "" → rd_data r = "" → err_message s' = newline) ∧
        ∀ now, now < t + 60 * Second →
               Error s' now = Some (errors_New (err_message s')).
Proof.
  intros He Hn.
  assert (WriteError s (rd_data r +:+ newline) t =
            Some (set_err_message
                    (string_last 1024
                       (err_message s +:+ rd_data r +:+ newline)) t s))
    as Hw.
  { apply WriteError_window. rewrite len_app, len_newline.
    unfold MAX_ERR_MSG_LEN. lia. }
  eexists. unfold StartStderr_iter. rewrite He, Hw. simpl.
  split; [done|].
  assert (string_last 1
            (string_last 1024 (err_message s +:+ rd_data r +:+ newline))
          = newline) as Hend.
  { rewrite string_last_last by lia.
    rewrite <- string_app_assoc.
    apply (string_last_app_r (err_message s +:+ rd_data r) newline). }
  split; [done|]. split.
  - intros -> ->. reflexivity.
  - intros now Hnow. apply Error_Some_fresh; simpl; [lia|].
    intros Hempty. rewrite Hempty in Hend. done.
Qed.

Lemma Error_after_end_of_stream_witness :
  ∃ s', StartStderr_iter example_holder (mkRead "" (Some EOF)) 7
          = Some (s', Break) ∧
        string_last 1 (err_message s') = newline ∧
        (err_message example_holder = "" → rd_data (mkRead "" (Some EOF)) = ""
           → err_message s' = newline) ∧
        ∀ now, now < 7 + 60 * Second →
               Error s' now = Some (errors_New (err_message s')).
Proof.
  apply (Error_after_end_of_stream example_holder (mkRead "" (Some EOF)) 7).
  - reflexivity.
  - by vm_compute.
Defined.

(** ** The stdout task as a whole *)

Lemma calls_to_session_app (key : string) (tr tr' : list effect) :
  calls_to_session key (tr ++ tr') =
    calls_to_session key tr ++ calls_to_session key tr'.
Proof.
  induction tr as [|e tr IH]; [done|].
  destruct e; simpl; try done. case_decide; simpl; by rewrite IH.
Qed.

Lemma calls_to_broadcast_app (key : string) (tr tr' : list effect) :
  calls_to_broadcast key (tr ++ tr') =
    calls_to_broadcast key tr ++ calls_to_broadcast key tr'.
Proof.
  induction tr as [|e tr IH]; [done|].
  destruct e; simpl; try done. case_decide; simpl; by rewrite IH.
Qed.

Lemma calls_to_session_broadcast_loop (key holder_id data : string)
    (visits : list (string * callback)) :
  calls_to_session key (broadcast_loop holder_id data visits) = [].
Proof. induction visits as [|[k f] rest IH]; simpl; done. Qed.

Lemma calls_to_broadcast_session_loop (key session_id data : string)
    (visits : list (string * callback)) :
  calls_to_broadcast key (session_loop session_id data visits) = [].
Proof.
  induction visits as [|[k f] rest IH]; simpl; [done|].
  case_decide; simpl; done.
Qed.

Lemma health_chan_closes_broadcast_loop (holder_id data : string)
    (visits : list (string * callback)) :
  health_chan_closes (broadcast_loop holder_id data visits) = O.
Proof.
  unfold health_chan_closes.
  induction visits as [|[k f] rest IH]; simpl; [done|].
  rewrite filter_cons_False by done. apply IH.
Qed.

Lemma health_chan_closes_session_loop (session_id data : string)
    (visits : list (string * callback)) :
  health_chan_closes (session_loop session_id data visits) = O.
Proof.
  induction visits as [|[k f] rest IH]; simpl; [done|].
  rewrite health_chan_closes_app, IH. case_decide; done.
Qed.

(** The broadcast calls of one event that reach the listener under [key]. *)
Lemma calls_to_broadcast_loop_absent (key holder_id data : string)
    (visits : list (string * callback)) :
  (∀ f, (key, f) ∉ visits) →
  calls_to_broadcast key (broadcast_loop holder_id data visits) = [].
Proof.
  induction visits as [|[k f] rest IH]; intros Hno; [done|].
  simpl. rewrite decide_False.
  - apply IH. intros f' Hin. apply (Hno f'). by right.
  - intros ->. apply (Hno f). by left.
Qed.

Lemma calls_to_broadcast_loop_present (key holder_id data : string)
    (f : callback) (visits : list (string * callback)) :
  NoDup visits.*1 →
  (key, f) ∈ visits →
  calls_to_broadcast key (broadcast_loop holder_id data visits)
    = [(f, holder_id, data)].
Proof.
  induction visits as [|[k f'] rest IH]; intros Hnd Hin.
  - by apply elem_of_nil in Hin.
  - simpl in Hnd. apply NoDup_cons in Hnd as [Hk Hnd].
    apply elem_of_cons in Hin as [Heq|Hin].
    + simplify_eq. simpl. rewrite decide_True by done.
      rewrite calls_to_broadcast_loop_absent; [done|].
      intros f'' Hin. apply Hk.
      apply (list_elem_of_fmap_2 fst) in Hin. done.
    + simpl. rewrite decide_False; [by apply IH|].
      intros ->. apply Hk.
      apply (list_elem_of_fmap_2 fst) in Hin. done.
Qed.

Lemma calls_to_broadcast_loop_lookup (key holder_id data : string)
    (m : gmap string callback) (visits : list (string * callback)) :
  visits ≡ₚ map_to_list m →
  calls_to_broadcast key (broadcast_loop holder_id data visits) =
    match m !! key with
    | Some f => [(f, holder_id, data)]
    | None => []
    end.
Proof.
  intros Hperm. destruct (m !! key) as [f|] eqn:Hm.
  - apply calls_to_broadcast_loop_present.
    + rewrite Hperm. apply NoDup_fst_map_to_list.
    + rewrite Hperm. by apply elem_of_map_to_list.
  - apply calls_to_broadcast_loop_absent. intros f Hin.
    rewrite Hperm in Hin. apply elem_of_map_to_list in Hin. congruence.
Qed.

Section WholeStream.

Variable UnmarshalEvent : string → error + PluginUniversalEvent.
Variable UnmarshalLog : string → error + PluginLogEvent.

Abbreviation handle' := (handle_line UnmarshalEvent UnmarshalLog).
Abbreviation scan' := (scan_loop UnmarshalEvent UnmarshalLog).

Lemma handle_line_session_calls (key : string) (s : stdioHolder)
    (it : iteration) (data : string) :
  range_listener it ≡ₚ map_to_list (listener s) →
  calls_to_session key (handle' s it data).1 =
    match decoded_session UnmarshalEvent data, listener s !! key with
    | Some event, Some f =>
        if decide (SessionId event = key) then [(f, Data event)] else []
    | _, _ => []
    end.
Proof.
  intros Hperm. unfold handle_line, decoded_session.
  case_decide; [done|].
  destruct (UnmarshalEvent data) as [err|event]; [done|].
  destruct (Event event); simpl; try (by destruct (listener s !! key)).
  - destruct (UnmarshalLog (Data event)); by destruct (listener s !! key).
  - rewrite calls_to_session_app, calls_to_session_broadcast_loop. simpl.
    rewrite (session_loop_lookup _ _ (listener s)) by done.
    case_decide as Hk.
    + subst key. destruct (listener s !! SessionId event); simpl; [|done].
      by rewrite decide_True.
    + destruct (listener s !! SessionId event); simpl;
        [rewrite decide_False by done|]; by destruct (listener s !! key).
Qed.

Lemma handle_line_broadcast_calls (key : string) (g : globals)
    (s : stdioHolder) (it : iteration) (data : string) :
  range_listeners it ≡ₚ map_to_list (listeners g) →
  calls_to_broadcast key (handle' s it data).1 =
    match decoded_session UnmarshalEvent data, listeners g !! key with
    | Some event, Some f => [(f, id s, Data event)]
    | _, _ => []
    end.
Proof.
  intros Hperm. unfold handle_line, decoded_session.
  case_decide; [done|].
  destruct (UnmarshalEvent data) as [err|event]; [done|].
  destruct (Event event); simpl; try (by destruct (listeners g !! key)).
  - destruct (UnmarshalLog (Data event)); by destruct (listeners g !! key).
  - rewrite calls_to_broadcast_app, calls_to_broadcast_session_loop.
    rewrite app_nil_r.
    rewrite (calls_to_broadcast_loop_lookup _ _ _ (listeners g)) by done.
    by destruct (listeners g !! key).
Qed.

Lemma handle_line_no_close (s : stdioHolder) (it : iteration) (data : string) :
  health_chan_closes (handle' s it data).1 = O.
Proof.
  unfold handle_line. case_decide; [done|].
  destruct (UnmarshalEvent data) as [err|event]; [done|].
  destruct (Event event); simpl; try done.
  - by destruct (UnmarshalLog (Data event)).
  - by rewrite health_chan_closes_app, health_chan_closes_broadcast_loop,
      health_chan_closes_session_loop.
Qed.

Lemma scan_loop_no_close (script : list (string * iteration)) (s : stdioHolder) :
  health_chan_closes (scan' s script).1 = O.
Proof.
  revert s. induction script as [|[data it] rest IH]; intros s; [done|].
  simpl. by rewrite health_chan_closes_app, handle_line_no_close, IH.
Qed.

Lemma admissible_set_last_active_at (g : globals) (s : stdioHolder)
    (t : Time) (it : iteration) :
  admissible g (set_last_active_at t s) it ↔ admissible g s it.
Proof. done. Qed.

(** X6.  Whatever lines the scanner yields, the clock reading of the last
    [HEARTBEAT] among them is the value of [last_active_at] when the loop
    ends (the old value when there is none), and the loop changes no other
    field of the holder: not the ring, not the listeners, not the
    termination flag. *)
Theorem scan_loop_last_heartbeat
    (script : list (string * iteration)) (s : stdioHolder) :
  (scan' s script).2 =
    set_last_active_at
      (last_heartbeat UnmarshalEvent (last_active_at s) script) s.
Proof. apply scan_loop_state. Qed.

(** X7.  Along a whole stream, the listener registered under a session id
    is called exactly with the data of the [SESSION] envelopes that carry
    this id, once each and in the order of the lines; when no listener is
    registered under the id, nothing is called for it. *)
Theorem session_listener_delivery
    (g : globals) (key : string)
    (script : list (string * iteration)) (s : stdioHolder) :
  admissible_script g s script →
  calls_to_session key (scan' s script).1 =
    match listener s !! key with
    | Some f =>
        map (λ event, (f, Data event))
          (filter (λ event, SessionId event = key)
             (session_events UnmarshalEvent script))
    | None => []
    end.
Proof.
  unfold admissible_script. revert s.
  induction script as [|[data it] rest IH]; intros s Hadm.
  - simpl. by destruct (listener s !! key).
  - apply Forall_cons in Hadm as [[_ Hit] Hrest]. simpl in Hit.
    simpl. rewrite calls_to_session_app, handle_line_session_calls by done.
    rewrite handle_line_state, IH by done. simpl.
    destruct (decoded_session UnmarshalEvent data) as [event|];
      destruct (listener s !! key) as [f|]; simpl; try done.
    case_decide.
    + by rewrite filter_cons_True.
    + by rewrite filter_cons_False.
Qed.

(** X8.  Along a whole stream, every broadcast listener registered in
    [listeners] is called with the id of the holder and the data of every
    [SESSION] envelope, whatever its session id, once each and in the order
    of the lines. *)
Theorem broadcast_listener_delivery
    (g : globals) (key : string)
    (script : list (string * iteration)) (s : stdioHolder) :
  admissible_script g s script →
  calls_to_broadcast key (scan' s script).1 =
    match listeners g !! key with
    | Some f =>
        map (λ event, (f, id s, Data event))
          (session_events UnmarshalEvent script)
    | None => []
    end.
Proof.
  unfold admissible_script. revert s.
  induction script as [|[data it] rest IH]; intros s Hadm.
  - simpl. by destruct (listeners g !! key).
  - apply Forall_cons in Hadm as [[Hit _] Hrest]. simpl in Hit.
    simpl. rewrite calls_to_broadcast_app.
    rewrite (handle_line_broadcast_calls key g) by done.
    rewrite handle_line_state, IH by done. simpl.
    destruct (decoded_session UnmarshalEvent data) as [event|];
      destruct (listeners g !! key) as [f|]; simpl; done.
Qed.

End WholeStream.

Lemma example_script_admissible :
  admissible_script example_session_globals example_session_holder
    [("s{}", example_iteration 1); ("not json", example_iteration 2);
     ("h", example_iteration 3); ("s[1]", example_iteration 4)].
Proof. repeat constructor; apply example_iteration_admissible. Defined.

Lemma session_listener_delivery_witness :
  calls_to_session "a"
    (scan_loop example_UnmarshalEvent example_UnmarshalLog
       example_session_holder
       [("s{}", example_iteration 1); ("not json", example_iteration 2);
        ("h", example_iteration 3); ("s[1]", example_iteration 4)]).1
  = match listener example_session_holder !! "a" with
    | Some f =>
        map (λ event, (f, Data event))
          (filter (λ event, SessionId event = "a")
             (session_events example_UnmarshalEvent
                [("s{}", example_iteration 1);
                 ("not json", example_iteration 2);
                 ("h", example_iteration 3); ("s[1]", example_iteration 4)]))
    | None => []
    end.
Proof.
  apply (session_listener_delivery example_UnmarshalEvent
           example_UnmarshalLog example_session_globals "a").
  apply example_script_admissible.
Defined.

Lemma broadcast_listener_delivery_witness :
  calls_to_broadcast "l1"
    (scan_loop example_UnmarshalEvent example_UnmarshalLog
       example_session_holder
       [("s{}", example_iteration 1); ("not json", example_iteration 2);
        ("h", example_iteration 3); ("s[1]", example_iteration 4)]).1
  = match listeners example_session_globals !! "l1" with
    | Some f =>
        map (λ event, (f, id example_session_holder, Data event))
          (session_events example_UnmarshalEvent
             [("s{}", example_iteration 1);
              ("not json", example_iteration 2);
              ("h", example_iteration 3); ("s[1]", example_iteration 4)])
    | None => []
    end.
Proof.
  apply (broadcast_listener_delivery example_UnmarshalEvent
           example_UnmarshalLog example_session_globals "l1").
  apply example_script_admissible.
Defined.

Lemma health_invariant_consistent (s : stdioHolder) :
  health_invariant s → health_consistent s.
Proof.
  unfold health_invariant, health_consistent. intros [H1 H2] Hflag.
  destruct (health_chan s); [done|].
  rewrite H2 in Hflag; done.
Qed.

(** What [Stop] does to a holder that satisfies the invariant. *)
Lemma Stop_result (g : globals) (s : stdioHolder) :
  health_invariant s →
  ∃ tr s',
    Stop g s =
      Some (tr, mkGlobals (delete (id s) (stdio_holder g)) (listeners g), s') ∧
    s' = set_health_chan ChanClosed true (close_streams s) ∧
    health_chan_closes tr = (if health_chan_closed s then 0 else 1)%nat.
Proof.
  intros Hinv. rewrite Stop_unfold by by apply health_invariant_consistent.
  eexists _, _. split; [done|]. split.
  - destruct (health_chan_closed s) eqn:Hflag; [|done].
    destruct Hinv as [Hch _]. specialize (Hch Hflag).
    destruct s; simpl in *. by subst.
  - by destruct (health_chan_closed s).
Qed.

(** X9.  However the scanner loop ends, the stdout task returns without a
    panic and leaves the holder stopped: the latch [started] and the
    termination flag are set, the health channel is closed, the three streams
    have received one more [Close], and the holder is gone from the
    process-wide index, whose other entries and the broadcast listeners are
    untouched.  The health channel is closed once by the task if it was
    open, and not at all if it was closed already.  A call of [Wait] on the
    holder afterwards returns the error of a waiter that was never armed. *)
Theorem StartStdout_leaves_holder_stopped
    (UnmarshalEvent : string → error + PluginUniversalEvent)
    (UnmarshalLog : string → error + PluginLogEvent)
    (g : globals) (s : stdioHolder) (script : list (string * iteration)) :
  health_invariant s →
  ∃ tr g' s',
    StartStdout UnmarshalEvent UnmarshalLog g s script = Some (tr, g', s') ∧
    s' = set_health_chan ChanClosed true
           (close_streams
              (set_last_active_at
                 (last_heartbeat UnmarshalEvent (last_active_at s) script)
                 (set_started true s))) ∧
    stdio_holder g' !! id s = None ∧
    (∀ j, j ≠ id s → stdio_holder g' !! j = stdio_holder g !! j) ∧
    listeners g' = listeners g ∧
    health_chan_closes tr = (if health_chan_closed s then 0 else 1)%nat ∧
    Wait_step s' AtEntry CheckFlag
      = Some (Done (Some (errors_New
                "you need to start the health check before waiting"))).
Proof.
  intros Hinv. unfold StartStdout.
  rewrite scan_loop_state. simpl last_active_at.
  set (s2 := set_last_active_at
               (last_heartbeat UnmarshalEvent (last_active_at s) script)
               (set_started true s)).
  destruct (Stop_result g s2) as (tr & s' & Hstop & Hs' & Hcl).
  { exact Hinv. }
  rewrite Hstop. simpl.
  eexists _, _, s'. split; [done|]. split; [done|].
  change (id s2) with (id s). cbn [stdio_holder listeners].
  split; [apply lookup_delete_eq|].
  split; [intros j Hj; by apply lookup_delete_ne|].
  split; [done|]. split.
  - by rewrite health_chan_closes_app, scan_loop_no_close, Hcl.
  - by rewrite Hs'.
Qed.

Lemma StartStdout_leaves_holder_stopped_witness :
  ∃ tr g' s',
    StartStdout example_UnmarshalEvent example_UnmarshalLog
      (mkGlobals (<["holder-1" := 1%positive]> (<["holder-2" := 2%positive]> ∅))
         ∅)
      example_holder [("h", example_iteration 3); ("s{}", example_iteration 4)]
      = Some (tr, g', s') ∧
    s' = set_health_chan ChanClosed true
           (close_streams
              (set_last_active_at
                 (last_heartbeat example_UnmarshalEvent
                    (last_active_at example_holder)
                    [("h", example_iteration 3); ("s{}", example_iteration 4)])
                 (set_started true example_holder))) ∧
    stdio_holder g' !! id example_holder = None ∧
    (∀ j, j ≠ id example_holder →
       stdio_holder g' !! j =
         stdio_holder
           (mkGlobals
              (<["holder-1" := 1%positive]> (<["holder-2" := 2%positive]> ∅))
              ∅) !! j) ∧
    listeners g' = ∅ ∧
    health_chan_closes tr
      = (if health_chan_closed example_holder then 0 else 1)%nat ∧
    Wait_step s' AtEntry CheckFlag
      = Some (Done (Some (errors_New
                "you need to start the health check before waiting"))).
Proof.
  apply (StartStdout_leaves_holder_stopped example_UnmarshalEvent
           example_UnmarshalLog
           (mkGlobals
              (<["holder-1" := 1%positive]> (<["holder-2" := 2%positive]> ∅))
              ∅)
           example_holder
           [("h", example_iteration 3); ("s{}", example_iteration 4)]).
  split; intros H; by vm_compute in H.
Defined.

(** ** The waiter among the other tasks *)

(** X10.  [Stop] unblocks a waiter wherever it stands: on the holder that
    [Stop] leaves, a waiter that has not returned always has a step to take
    (the receive on the health channel when it is in the [select]), and
    whatever steps it takes, it has returned after two of them at the
    latest.  From the [select], the receive on the health channel returns
    what [Error] reports on the ring, which [Stop] has not touched. *)
Theorem Stop_unblocks_waiter (g : globals) (s : stdioHolder) (pc : wait_pc) :
  health_invariant s →
  ¬ returned pc →
  ∃ tr g' s',
    Stop g s = Some (tr, g', s') ∧
    (∃ st pc1, Wait_step s' pc st = Some pc1) ∧
    (∀ st pc1, Wait_step s' pc st = Some pc1 →
       returned pc1 ∨
       ∀ st2 pc2, Wait_step s' pc1 st2 = Some pc2 → returned pc2) ∧
    (∀ now, pc = AtSelect →
       Wait_step s' pc (RecvHealth now) = Some (Done (Error s now))).
Proof.
  intros Hinv Hpc.
  destruct (Stop_result g s Hinv) as (tr & s' & Hstop & Hs' & _).
  exists tr, (mkGlobals (delete (id s) (stdio_holder g)) (listeners g)), s'.
  split; [done|]. subst s'.
  destruct pc as [| | |r]; [| | |by destruct Hpc].
  - split; [by exists CheckFlag, (Done (Some (errors_New
             "you need to start the health check before waiting")))|].
    split; [|done].
    intros [|now|now] pc1 Hstep; simplify_eq/=. by left.
  - split; [by exists CheckFlag, (Done None)|]. split; [|done].
    intros [|now|now] pc1 Hstep; simplify_eq/=. by left.
  - split; [by exists (RecvHealth 0), (Done (Error s 0))|]. split; [|done].
    intros [|now|now] pc1 Hstep; simpl in Hstep; [done| |].
    + case_decide; simplify_eq; [by left|]. right.
      intros [|now2|now2] pc2 Hstep2; by simplify_eq/=.
    + simplify_eq. by left.
Qed.

Lemma Stop_unblocks_waiter_witness :
  ∃ tr g' s',
    Stop example_globals (set_err_message "boom" 3 example_holder)
      = Some (tr, g', s') ∧
    (∃ st pc1, Wait_step s' AtSelect st = Some pc1) ∧
    (∀ st pc1, Wait_step s' AtSelect st = Some pc1 →
       returned pc1 ∨
       ∀ st2 pc2, Wait_step s' pc1 st2 = Some pc2 → returned pc2) ∧
    (∀ now, AtSelect = AtSelect →
       Wait_step s' AtSelect (RecvHealth now)
         = Some (Done (Error (set_err_message "boom" 3 example_holder) now))).
Proof.
  apply (Stop_unblocks_waiter example_globals
           (set_err_message "boom" 3 example_holder) AtSelect).
  - split; intros H; by vm_compute in H.
  - intros H. exact H.
Defined.

Lemma WriteError_health (s s' : stdioHolder) (msg : string) (now : Time) :
  WriteError s msg now = Some s' →
  health_chan_closed s' = health_chan_closed s ∧
  health_chan s' = health_chan s ∧
  last_active_at s' = last_active_at s.
Proof. intros Hw. apply WriteError_frame in Hw. by rewrite Hw. Qed.

Lemma open_and_polling_step (y y' : system) (a : action) :
  open_and_polling y →
  a ≠ StopCalled →
  system_step y a = Some y' →
  open_and_polling y'.
Proof.
  destruct y as [g s pc]. intros (Hflag & Hch & Hpc) Hns Hstep.
  simpl in *. destruct a as [st| |now|msg now]; [| done | |].
  - simpl in Hstep.
    destruct (Wait_step s pc st) as [pc'|] eqn:Hw; simplify_eq/=.
    split; [done|]. split; [done|].
    destruct pc as [| | |r], st as [|now|now]; simpl in Hw;
      rewrite ?Hflag, ?Hch in Hw; simplify_eq; try done.
    case_decide; by simplify_eq.
  - simplify_eq/=. done.
  - simpl in Hstep.
    destruct (WriteError s msg now) as [s1|] eqn:Hw; simplify_eq/=.
    apply WriteError_health in Hw as (Hf & Hc & _).
    unfold open_and_polling. simpl. by rewrite Hf, Hc.
Qed.

(** X11.  As long as [Stop] is not called, a call of [Wait] on an open
    holder can return in one way only, whatever the other tasks do to the
    ring and to the heartbeat clock: through the inactivity check, with the
    error "plugin is not active".  It returns neither [nil], nor the content
    of the error ring, nor the error of a waiter that was never armed. *)
Theorem Wait_returns_only_inactive_without_Stop
    (g : globals) (s : stdioHolder) (sched : list action)
    (y : system) (r : option error) :
  health_chan_closed s = false →
  health_chan s = ChanOpen →
  Forall (λ a, a ≠ StopCalled) sched →
  system_run (mkSystem g s AtEntry) sched = Some y →
  sys_wait y = Done r →
  r = Some (errors_New "plugin is not active").
Proof.
  intros Hflag Hch Hns Hrun Hdone.
  assert (open_and_polling y) as (_ & _ & Hpc).
  { assert (open_and_polling (mkSystem g s AtEntry)) as Hinit by done.
    revert Hinit Hrun. generalize (mkSystem g s AtEntry).
    induction sched as [|a rest IH]; intros y0 Hinit Hrun.
    - by simplify_eq/=.
    - apply Forall_cons in Hns as [Ha Hrest]. simpl in Hrun.
      destruct (system_step y0 a) as [y1|] eqn:Hstep; simplify_eq/=.
      eapply IH; [done| |done]. by eapply open_and_polling_step. }
  by rewrite Hdone in Hpc.
Qed.

Lemma Wait_returns_only_inactive_without_Stop_witness :
  ∃ y, system_run (mkSystem example_globals example_holder AtEntry)
         [WaitDoes CheckFlag; ErrorWritten "boom" (2 * Second);
          WaitDoes CheckFlag; HeartbeatHandled (3 * Second);
          WaitDoes (RecvTick (5 * Second)); WaitDoes CheckFlag;
          WaitDoes (RecvTick (25 * Second))] = Some y ∧
       sys_wait y = Done (Some (errors_New "plugin is not active")).
Proof.
  eexists. split; [reflexivity|].
  refine (f_equal Done
            (Wait_returns_only_inactive_without_Stop example_globals
               example_holder
               [WaitDoes CheckFlag; ErrorWritten "boom" (2 * Second);
                WaitDoes CheckFlag; HeartbeatHandled (3 * Second);
                WaitDoes (RecvTick (5 * Second)); WaitDoes CheckFlag;
                WaitDoes (RecvTick (25 * Second))]
               _ (Some (errors_New "plugin is not active"))
               eq_refl eq_refl _ eq_refl eq_refl)).
  repeat constructor; done.
Defined.

(** X12.  A holder whose heartbeats keep coming is never declared
    inactive: as long as [Stop] is not called and every tick is read at most
    20 seconds after the heartbeat handled last before it, a waiter that has
    not returned does not return, whatever the interleaving. *)
Theorem Wait_keeps_waiting_while_heartbeats
    (sched : list action) (g : globals) (s : stdioHolder) (pc : wait_pc)
    (y : system) :
  health_chan_closed s = false →
  health_chan s = ChanOpen →
  ¬ returned pc →
  Forall (λ a, a ≠ StopCalled) sched →
  ticks_in_time (last_active_at s) sched →
  system_run (mkSystem g s pc) sched = Some y →
  open_and_waiting y.
Proof.
  revert g s pc. induction sched as [|a rest IH];
    intros g s pc Hflag Hch Hpc Hns Hticks Hrun.
  - by simplify_eq/=.
  - apply Forall_cons in Hns as [Ha Hrest]. simpl in Hrun.
    destruct a as [st| |now|msg now]; [| done | |].
    + simpl in Hrun.
      destruct (Wait_step s pc st) as [pc'|] eqn:Hw; simplify_eq/=.
      destruct pc as [| | |r], st as [|now|now]; simpl in Hw, Hticks;
        rewrite ?Hflag, ?Hch in Hw; simplify_eq;
        try (by eapply IH; [..|exact Hrun]).
      destruct Hticks as [Hnow Hticks].
      rewrite decide_False in Hw.
      * simplify_eq. by eapply IH; [..|exact Hrun].
      * intros Hgt. apply Since_gt in Hgt; [lia|by vm_compute].
    + simpl in Hrun, Hticks. by eapply IH; [..|exact Hrun].
    + simpl in Hrun, Hticks.
      destruct (WriteError s msg now) as [s1|] eqn:Hw; simplify_eq/=.
      apply WriteError_health in Hw as (Hf & Hc & Hla).
      eapply IH; [..|exact Hrun]; try done; congruence.
Qed.

Lemma Wait_keeps_waiting_while_heartbeats_witness :
  ∃ y, system_run (mkSystem example_globals example_holder AtEntry)
         [WaitDoes CheckFlag; WaitDoes CheckFlag;
          HeartbeatHandled (3 * Second); WaitDoes (RecvTick (5 * Second));
          WaitDoes CheckFlag; ErrorWritten "warn" (7 * Second);
          HeartbeatHandled (8 * Second); WaitDoes (RecvTick (10 * Second));
          WaitDoes CheckFlag; WaitDoes (RecvTick (28 * Second))] = Some y ∧
       open_and_waiting y.
Proof.
  eexists. split; [reflexivity|].
  refine (Wait_keeps_waiting_while_heartbeats
            [WaitDoes CheckFlag; WaitDoes CheckFlag;
             HeartbeatHandled (3 * Second); WaitDoes (RecvTick (5 * Second));
             WaitDoes CheckFlag; ErrorWritten "warn" (7 * Second);
             HeartbeatHandled (8 * Second); WaitDoes (RecvTick (10 * Second));
             WaitDoes CheckFlag; WaitDoes (RecvTick (28 * Second))]
            example_globals example_holder AtEntry _
            eq_refl eq_refl _ _ _ eq_refl).
  - intros H. exact H.
  - repeat constructor; done.
  - by vm_compute.
Defined.

(** ** The close helper of [Endpoint] *)

(** X13.  The helper [close] of [Endpoint] closes the channel [done] once,
    however often it is called: as long as [done] is open while the flag
    [closed] is 0, as it is when [Endpoint] creates them, any number of calls
    ([Endpoint] defers one and the copying task defers another) returns
    without the panic of a second [close(done)] and leaves what one call
    leaves, the flag at 1 and the channel closed. *)
Theorem Endpoint_close_idempotent (k : nat) (e : endpoint_signal) :
  (sig_closed e = 0 → sig_done e = ChanOpen) →
  (1 <= k)%nat →
  Endpoint_close_times k e = Endpoint_close e ∧
  Endpoint_close e =
    Some (if decide (sig_closed e = 0) then mkSignal 1 ChanClosed else e).
Proof.
  intros Hinv Hk.
  assert (∀ e0, sig_closed e0 ≠ 0 → Endpoint_close e0 = Some e0) as Hset.
  { intros [c d] Hc. unfold Endpoint_close, CompareAndSwapInt32. simpl in *.
    by rewrite decide_False. }
  assert (∀ n e0, sig_closed e0 ≠ 0 → Endpoint_close_times n e0 = Some e0)
    as Hrest.
  { induction n as [|n IH]; intros e0 Hc; [done|].
    simpl. rewrite Hset by done. simpl. by apply IH. }
  assert (Endpoint_close e =
            Some (if decide (sig_closed e = 0) then mkSignal 1 ChanClosed
                  else e)) as Hone.
  { case_decide as Hc; [|by apply Hset].
    unfold Endpoint_close, CompareAndSwapInt32.
    rewrite decide_True by done. simpl. by rewrite (Hinv Hc). }
  split; [|done].
  destruct k as [|k]; [lia|]. simpl. rewrite Hone. simpl.
  apply Hrest. by case_decide.
Qed.

Lemma Endpoint_close_idempotent_witness :
  Endpoint_close_times 2 new_endpoint_signal
    = Endpoint_close new_endpoint_signal ∧
  Endpoint_close new_endpoint_signal =
    Some (if decide (sig_closed new_endpoint_signal = 0)
          then mkSignal 1 ChanClosed else new_endpoint_signal).
Proof.
  apply (Endpoint_close_idempotent 2 new_endpoint_signal).
  - intros _. reflexivity.
  - lia.
Defined.
